(** * Logto console: session details page and UI cookie guard

    A shallow embedding of

    - [packages/console/src/pages/UserSessionDetails/index.tsx]
      (timestamp formatting, header title, authorised applications,
      info fields, revoke wiring), and
    - [packages/schemas/src/types/cookie.ts] (the [logtoUiCookieGuard]
      zod schema),

    together with the properties stated about them. *)

From stdpp Require Import base numbers list sorting strings pretty gmap.

(** ** JavaScript data *)

Module Js.

(** A JS [number] as far as timestamps need it: the integer-valued doubles
    (exact up to 2^53, which covers every product below), [NaN] and the two
    infinities.  Fractional doubles are not represented. *)
Inductive number : Type :=
  | NaN
  | Infinity (negative : bool)
  | Finite (z : Z).

(** [!value] is [true] exactly for the falsy numbers [0] and [NaN]. *)
Definition number_truthy (n : number) : bool :=
  match n with
  | NaN => false
  | Infinity _ => true
  | Finite z => negb (z =? 0)%Z
  end.

(** [a < b] *)
Definition number_lt (a b : number) : bool :=
  match a, b with
  | NaN, _ | _, NaN => false
  | Infinity na, Infinity nb => na && negb nb
  | Infinity na, Finite _ => na
  | Finite _, Infinity nb => negb nb
  | Finite x, Finite y => (x <? y)%Z
  end.

(** [a <= b] *)
Definition number_le (a b : number) : bool :=
  match a, b with
  | NaN, _ | _, NaN => false
  | Infinity na, Infinity nb => na || negb nb
  | Infinity na, Finite _ => na
  | Finite _, Infinity nb => negb nb
  | Finite x, Finite y => (x <=? y)%Z
  end.

(** [a * b], for integer values whose product stays within [±2^53] (beyond
    that a double rounds, which this product does not); every statement
    below keeps to that range. *)
Definition number_mul (a b : number) : number :=
  match a, b with
  | NaN, _ | _, NaN => NaN
  | Finite x, Finite y => Finite (x * y)
  | Infinity na, Infinity nb => Infinity (xorb na nb)
  | Infinity n, Finite z | Finite z, Infinity n =>
      if (z =? 0)%Z then NaN else Infinity (xorb n (z <? 0)%Z)
  end.

(** Truthiness of an optional string: [undefined] and the empty string are
    falsy. *)
Definition string_truthy (s : option string) : bool :=
  match s with
  | Some s => negb (String.eqb s EmptyString)
  | None => false
  end.

(** The string a truthy optional string is narrowed to. *)
Definition narrow (s : option string) : option string :=
  if string_truthy s then s else None.

(** [a ?? b] where [b] may itself be [undefined]: only [undefined] falls
    through, the empty string does not. *)
Definition nullish_or {A} (a b : option A) : option A :=
  match a with
  | Some _ => a
  | None => b
  end.

(** [a ?? b] with a defined right-hand side. *)
Definition nullish {A} (a : option A) (b : A) : A :=
  match a with
  | Some x => x
  | None => b
  end.

(** [`${s}`] for an optional string. *)
Definition interpolate (s : option string) : string :=
  nullish s "undefined".

(** A plain object with string keys, as the list of its own enumerable
    properties in the order they were created. *)
Definition object (V : Type) : Type := list (string * V).

(** The property names of an object in creation order. *)
Definition names {V} (o : object V) : list string := o.*1.

(** The value of a string of decimal digits, continuing from [acc]. *)
Fixpoint decimal (s : string) (acc : N) : option N :=
  match s with
  | EmptyString => Some acc
  | String c s' =>
      match Ascii.is_nat c with
      | Some d => decimal s' (acc * 10 + N.of_nat d)
      | None => None
      end
  end.

(** The array index a property name denotes, if it is one: a canonical
    decimal numeral (no sign, no leading zero) below [2^32 - 1]. *)
Definition arrayIndex (s : string) : option N :=
  match s with
  | EmptyString => None
  | String c s' =>
      match Ascii.is_nat c with
      | Some 0 => if String.eqb s' EmptyString then Some 0%N else None
      | Some _ =>
          match decimal s 0 with
          | Some n => if (n <? 4294967295)%N then Some n else None
          | None => None
          end
      | None => None
      end
  end.

(** Property names that are array indices, compared by the index. *)
Definition indexLe (a b : string) : Prop :=
  (default 0 (arrayIndex a) ≤ default 0 (arrayIndex b))%N.

#[global] Instance indexLe_dec : RelDecision indexLe.
Proof. intros a b. unfold indexLe. apply _. Defined.

(** [Object.keys(o)]: the names that are array indices first, in ascending
    numeric order, then the other names in creation order. *)
Definition keys {V} (o : object V) : list string :=
  merge_sort indexLe (filter (λ k, is_Some (arrayIndex k)) (names o))
  ++ filter (λ k, ¬ is_Some (arrayIndex k)) (names o).

(** [o[k]], with [None] for [undefined]. *)
Fixpoint get {V} (o : object V) (k : string) : option V :=
  match o with
  | [] => None
  | (k', v) :: o' => if String.eqb k' k then Some v else get o' k
  end.

(** [o[k] = v]: an existing property keeps its place, a new one is added
    last. *)
Fixpoint set {V} (o : object V) (k : string) (v : V) : object V :=
  match o with
  | [] => [(k, v)]
  | (k', v') :: o' =>
      if String.eqb k' k then (k', v) :: o' else (k', v') :: set o' k v
  end.

(** The object a JSON text denotes: its members are assigned in the order
    they are written, a repeated name overwriting the earlier value. *)
Definition fromEntries {V} (entries : list (string * V)) : object V :=
  foldl (fun o kv => set o kv.1 kv.2) [] entries.

End Js.

Import Js.

(** ** External collaborators of the page *)

(** The part of [GetUserSessionResponse] the page reads.  [Grant] is the
    per-application authorization payload, which the page never inspects. *)
Record SessionPayload (Grant : Type) : Type := {
  uid : string;
  loginTs : option number;
  authorizations : object Grant;
}.
Arguments uid {Grant}.
Arguments loginTs {Grant}.
Arguments authorizations {Grant}.

Record GetUserSessionResponse (Grant : Type) : Type := {
  payload : SessionPayload Grant;
}.
Arguments payload {Grant}.

(** What [getSessionDisplayInfo] returns; every entry may be [undefined]. *)
Record SessionDisplayInfo : Type := {
  name : option string;
  ip : option string;
  location : option string;
  browserName : option string;
  osName : option string;
  deviceModel : option string;
}.

(** Functions the page imports and that live outside these two files. *)
Class Imports (Grant : Type) : Type := {
  (** [new Date(timestamp).toLocaleString()], supplied by the runtime and its
      locale. *)
  toLocaleString : number → string;
  (** [isBuiltInApplicationId] from [@logto/schemas]. *)
  isBuiltInApplicationId : string → bool;
  (** [getSessionDisplayInfo] from [UserSessions/utils]. *)
  getSessionDisplayInfo : GetUserSessionResponse Grant → SessionDisplayInfo;
}.

(** The React elements the page builds. *)
#[warnings="-register-all"]
Inductive ReactNode : Type :=
  | Null
  | Text (s : string)
  | DynamicT (forKey : string) (interpolation : list (string * string))
  | ApplicationName (applicationId : string) (isLink : bool)
  | UserName (isLink : bool) (userId : string)
  | Fragment (key : string) (children : list ReactNode)
  | Nodes (items : list ReactNode).

(** The [ApplicationName] elements of a node, in document order, each with
    its [applicationId] and [isLink] props. *)
Fixpoint renderedApplications (n : ReactNode) : list (string * bool) :=
  let fix each (ns : list ReactNode) : list (string * bool) :=
    match ns with
    | [] => []
    | n :: ns => (renderedApplications n ++ each ns)%list
    end in
  match n with
  | ApplicationName applicationId isLink => [(applicationId, isLink)]
  | Fragment _ children => each children
  | Nodes items => each items
  | Null | Text _ | DynamicT _ _ | UserName _ _ => []
  end.

(** ** [UserSessionDetails/index.tsx]: derived display values *)

Section UserSessionDetails.

Context {Grant : Type} `{!Imports Grant}.

(** [const timestamp = value < 1_000_000_000_000 ? value * 1000 : value] *)
Definition timestamp (value : number) : number :=
  if number_lt value (Finite 1000000000000)
  then number_mul value (Finite 1000)
  else value.

Definition formatTimestamp (value : option number) : string :=
  match value with
  | None => "-"
  | Some v =>
      if negb (number_truthy v) then "-"
      else toLocaleString (timestamp v)
  end.

Definition sessionInfo (sessionData : option (GetUserSessionResponse Grant))
    : option SessionDisplayInfo :=
  getSessionDisplayInfo <$> sessionData.

Definition sessionLocation (sessionData : option (GetUserSessionResponse Grant))
    : string :=
  nullish (sessionInfo sessionData ≫= location) "-".

Definition headerTitle (sessionInfo : option SessionDisplayInfo) : ReactNode :=
  match narrow (sessionInfo ≫= browserName), narrow (sessionInfo ≫= osName) with
  | Some browser, Some os =>
      DynamicT "user_details.sessions.browser_on_os"
               [("browser", browser); ("os", os)]
  | _, _ =>
      Text (nullish
              (nullish_or
                 (nullish_or (sessionInfo ≫= browserName) (sessionInfo ≫= osName))
                 (sessionInfo ≫= name))
              "-")
  end.

Definition signedInAt (sessionData : option (GetUserSessionResponse Grant))
    : string :=
  formatTimestamp (sessionData ≫= (λ d, loginTs (payload d))).

Definition applications (sessionData : option (GetUserSessionResponse Grant))
    : ReactNode :=
  let authorizedApplicationIds :=
    match sessionData with
    | Some d => keys (authorizations (payload d))
    | None => []
    end in
  if (length authorizedApplicationIds =? 0)%nat then Text "-"
  else
    Nodes
      (imap
         (λ index applicationId,
            Fragment applicationId
              [ if (0 <? index)%nat then Text ", " else Null;
                ApplicationName applicationId
                  (negb (isBuiltInApplicationId applicationId)) ])
         authorizedApplicationIds).

Record InfoField : Type := {
  key : string;
  labelKey : string;
  value : ReactNode;
}.

Definition infoFields (sessionData : option (GetUserSessionResponse Grant))
    (userId : option string) : list InfoField :=
  match sessionData with
  | None => []
  | Some d =>
      let info := sessionInfo sessionData in
      [ {| key := "session-id";
           labelKey := "user_details.sessions.session_id_column";
           value := Text (uid (payload d)) |};
        {| key := "user";
           labelKey := "user_details.sessions.user";
           value := match userId with
                    | Some u =>
                        if string_truthy userId then UserName true u
                        else Text "-"
                    | None => Text "-"
                    end |};
        {| key := "applications";
           labelKey := "user_details.sessions.applications";
           value := applications sessionData |};
        {| key := "signed-in-at";
           labelKey := "user_details.sessions.signed_in_at";
           value := Text (signedInAt sessionData) |};
        {| key := "ip";
           labelKey := "user_details.sessions.ip";
           value := Text (nullish (info ≫= ip) "-") |};
        {| key := "location";
           labelKey := "user_details.sessions.location_column";
           value := Text (sessionLocation sessionData) |};
        {| key := "browser-name";
           labelKey := "user_details.sessions.browser_name";
           value := Text (nullish (info ≫= browserName) "-") |};
        {| key := "os-name";
           labelKey := "user_details.sessions.os_name";
           value := Text (nullish (info ≫= osName) "-") |};
        {| key := "device-model";
           labelKey := "user_details.sessions.device_model";
           value := Text (nullish (info ≫= deviceModel) "-") |} ]
  end.

End UserSessionDetails.

(** ** [UserSessionDetails/index.tsx]: data fetching and the revoke wiring *)

(** Calls the page and its confirmation modal make on their surroundings. *)
Inductive Call : Type :=
  | SetShowRevokeConfirmModal (isOpen : bool)
  | MutateGlobal (cacheKey : string)
  | MutateSession
  | Navigate (delta : Z)
  | RevokeCommand (userId sessionId : string)
  | SurfaceError.

(** What those calls act on: the [useState] cell, the SWR cache (how many
    times each key has been asked to revalidate), the position in the
    history stack, and the calls made so far, oldest first. *)
Record World : Type := {
  showRevokeConfirmModal : bool;
  revalidations : gmap string nat;
  historyIndex : Z;
  calls : list Call;
}.

(** Event handlers are state transformers over [World]. *)
Definition Handler (A : Type) : Type := World → A * World.

Definition pure {A} (a : A) : Handler A := λ w, (a, w).

Definition andThen {A B} (m : Handler A) (k : A → Handler B) : Handler B :=
  λ w, let (a, w') := m w in k a w'.

Notation "m1 ;;; m2" := (andThen m1 (λ _, m2))
  (at level 100, m2 at level 200, right associativity).

Definition exec {A} (m : Handler A) (w : World) : World := (m w).2.

Definition record (c : Call) (w : World) : World :=
  {| showRevokeConfirmModal := showRevokeConfirmModal w;
     revalidations := revalidations w;
     historyIndex := historyIndex w;
     calls := calls w ++ [c] |}.

Definition revalidate (cacheKey : string) (cache : gmap string nat)
    : gmap string nat :=
  <[cacheKey := S (default 0 (cache !! cacheKey))]> cache.

Definition setShowRevokeConfirmModal (isOpen : bool) : Handler unit :=
  λ w, (tt, record (SetShowRevokeConfirmModal isOpen)
              {| showRevokeConfirmModal := isOpen;
                 revalidations := revalidations w;
                 historyIndex := historyIndex w;
                 calls := calls w |}).

(** [mutate(key)] of [useSWRConfig()]: revalidates the entry under [key]. *)
Definition mutateGlobal (cacheKey : string) : Handler unit :=
  λ w, (tt, record (MutateGlobal cacheKey)
              {| showRevokeConfirmModal := showRevokeConfirmModal w;
                 revalidations := revalidate cacheKey (revalidations w);
                 historyIndex := historyIndex w;
                 calls := calls w |}).

(** The bound [mutate] that [useSWR] returns: revalidates the hook's own
    key, and does nothing while that key is falsy. *)
Definition mutateSession (swrKey : option string) : Handler unit :=
  λ w, (tt, record MutateSession
              {| showRevokeConfirmModal := showRevokeConfirmModal w;
                 revalidations :=
                   match narrow swrKey with
                   | Some k => revalidate k (revalidations w)
                   | None => revalidations w
                   end;
                 historyIndex := historyIndex w;
                 calls := calls w |}).

Definition navigate (delta : Z) : Handler unit :=
  λ w, (tt, record (Navigate delta)
              {| showRevokeConfirmModal := showRevokeConfirmModal w;
                 revalidations := revalidations w;
                 historyIndex := (historyIndex w + delta)%Z;
                 calls := calls w |}).

(** A call that only leaves a trace. *)
Definition call (c : Call) : Handler unit := λ w, (tt, record c w).

(** [a && b] on optional strings. *)
Definition and_string (a b : option string) : option string :=
  if string_truthy a then b else a.

(** The key handed to [useSWR]:
    [userId && sessionId && `api/users/${userId}/sessions/${sessionId}`]. *)
Definition sessionKey (userId sessionId : option string) : option string :=
  and_string (and_string userId sessionId)
    (Some ("api/users/" +:+ interpolate userId +:+ "/sessions/"
             +:+ interpolate sessionId)).

(** [useSWR] requests a key only when the key is truthy. *)
Definition fetched (swrKey : option string) : option string := narrow swrKey.

(** The key passed to the global [mutate] after a revoke. *)
Definition sessionListKey (userId : string) : string :=
  "api/users/" +:+ userId +:+ "/sessions".

(** [onClick] of the revoke menu item. *)
Definition onClick : Handler unit := setShowRevokeConfirmModal true.

Definition onCancel : Handler unit := setShowRevokeConfirmModal false.

Definition onRevokeCallback (userId : string) : Handler unit :=
  setShowRevokeConfirmModal false ;;;
  mutateGlobal (sessionListKey userId) ;;;
  navigate (-1).

(** [onRetry] of the page shell. *)
Definition onRetry (userId sessionId : option string) : Handler unit :=
  mutateSession (sessionKey userId sessionId).

(** Props of [<RevokeSessionConfirmModal>]. *)
Record RevokeSessionConfirmModalProps : Type := {
  modalUserId : string;
  modalSessionId : string;
  isOpen : bool;
  modalOnCancel : Handler unit;
  modalOnRevokeCallback : Handler unit;
}.

(** [{userId && sessionId && <RevokeSessionConfirmModal ... />}] *)
Definition revokeModal (userId sessionId : option string) (w : World)
    : option RevokeSessionConfirmModalProps :=
  match narrow userId, narrow sessionId with
  | Some u, Some s =>
      Some {| modalUserId := u;
              modalSessionId := s;
              isOpen := showRevokeConfirmModal w;
              modalOnCancel := onCancel;
              modalOnRevokeCallback := onRevokeCallback u |}
  | _, _ => None
  end.

(** ** The revocation coordinator *)

(** Modelled from the spec: the states of the coordinator that
    [RevokeSessionConfirmModal] and the page realise together.  A failed
    revoke is idle again at once, so failure is not a state that lasts. *)
Inductive Phase : Type := Idle | ConfirmPending | Executing | Succeeded.

(** Modelled from the spec: what the operator and the backend can do to the
    coordinator. *)
Inductive Event : Type :=
  | InvokeRevoke
  | Cancel
  | Confirm
  | BackendAck
  | BackendError.

(** Modelled from the spec: [RevokeSessionConfirmModal], whose source is not
    among the files embedded here.  Following the coordinator's state
    machine: cancelling a pending confirmation calls [onCancel] and makes no
    backend call; confirming issues the revoke command for the two
    identifiers it was given; a backend acknowledgement calls
    [onRevokeCallback] once; a backend error is surfaced, calls neither
    callback, and the coordinator is idle again; a second confirmation while
    executing does nothing. *)
Definition modalStep (props : RevokeSessionConfirmModalProps)
    (phase : Phase) (e : Event) : Handler Phase :=
  match phase, e with
  | ConfirmPending, Cancel => modalOnCancel props ;;; pure Idle
  | ConfirmPending, Confirm =>
      call (RevokeCommand (modalUserId props) (modalSessionId props)) ;;;
      pure Executing
  | Executing, BackendAck => modalOnRevokeCallback props ;;; pure Succeeded
  | Executing, BackendError => call SurfaceError ;;; pure Idle
  | _, _ => pure phase
  end.

(** A mounted page: its route parameters, whether the session record has
    arrived, where the coordinator stands, and its world. *)
Record Page : Type := {
  userId : option string;
  sessionId : option string;
  hasSessionData : bool;
  phase : Phase;
  world : World;
}.

(** The revoke menu item is rendered under [sessionData && ...]; the modal
    under [userId && sessionId && ...]. *)
Definition pageStep (p : Page) (e : Event) : Page :=
  let '(phase', world') :=
    match e with
    | InvokeRevoke =>
        if hasSessionData p
        then (onClick ;;;
              pure (match phase p with Idle => ConfirmPending | ph => ph end))
               (world p)
        else (phase p, world p)
    | _ =>
        match revokeModal (userId p) (sessionId p) (world p) with
        | Some props => modalStep props (phase p) e (world p)
        | None => (phase p, world p)
        end
    end in
  {| userId := userId p;
     sessionId := sessionId p;
     hasSessionData := hasSessionData p;
     phase := phase';
     world := world' |}.

Definition run (p : Page) (events : list Event) : Page :=
  foldl pageStep p events.

(** A freshly mounted page.  The session record can only have arrived if
    its key was requested. *)
Definition mount (userId sessionId : option string) (loaded : bool) : Page :=
  {| userId := userId;
     sessionId := sessionId;
     hasSessionData :=
       loaded && bool_decide (is_Some (fetched (sessionKey userId sessionId)));
     phase := Idle;
     world := {| showRevokeConfirmModal := false;
                 revalidations := ∅;
                 historyIndex := 0;
                 calls := [] |} |}.

(** Calls that invalidate a cache entry or move through the history. *)
Definition isInvalidationOrNavigation (c : Call) : bool :=
  match c with
  | MutateGlobal _ | MutateSession | Navigate _ => true
  | _ => false
  end.

(** Calls that ask the SWR cache to revalidate. *)
Definition isCacheMutation (c : Call) : bool :=
  match c with
  | MutateGlobal _ | MutateSession => true
  | _ => false
  end.

Definition isRevokeCommand (c : Call) : bool :=
  match c with
  | RevokeCommand _ _ => true
  | _ => false
  end.

(** ** [schemas/src/types/cookie.ts] *)

(** The fragment of zod the cookie guard is written in. *)
Module Zod.

#[warnings="-register-all"]
Inductive JsValue : Type :=
  | VUndefined
  | VNull
  | VBoolean (b : bool)
  | VNumber (n : number)
  | VString (s : string)
  | VArray (items : list JsValue)
  | VObject (props : object JsValue).

(** [data[key]]: reading a property that is not there yields [undefined]. *)
Definition prop (data : object JsValue) (k : string) : JsValue :=
  default VUndefined (get data k).

(** [key in data] *)
Definition hasOwn (data : object JsValue) (k : string) : bool :=
  bool_decide (is_Some (get data k)).

Definition isUndefined (v : JsValue) : bool :=
  match v with
  | VUndefined => true
  | _ => false
  end.

#[warnings="-register-all"]
Inductive Schema : Type :=
  | ZString
  | ZOptional (inner : Schema)
  | ZObject (shape : list (string * Schema)).

(** [schema.safeParse(data)]: the parsed output on success, [None] on
    failure.  [z.string()] takes strings only; an optional schema takes
    [undefined] and otherwise defers to its inner schema; [z.object(shape)]
    takes non-null, non-array objects, parses [data[key]] against every key
    of the shape, and drops the keys it does not know.  A shape key is set
    on the output when it is in the input or parses to something other than
    [undefined]. *)
Fixpoint safeParse (schema : Schema) (data : JsValue) : option JsValue :=
  match schema with
  | ZString =>
      match data with
      | VString _ => Some data
      | _ => None
      end
  | ZOptional inner =>
      match data with
      | VUndefined => Some VUndefined
      | _ => safeParse inner data
      end
  | ZObject shape =>
      match data with
      | VObject props =>
          let fix pairs (shape : list (string * Schema))
              : option (object JsValue) :=
            match shape with
            | [] => Some []
            | (k, validator) :: shape' =>
                match safeParse validator (prop props k), pairs shape' with
                | Some out, Some rest =>
                    if negb (isUndefined out) || hasOwn props k
                    then Some ((k, out) :: rest)
                    else Some rest
                | _, _ => None
                end
            end in
          VObject <$> pairs shape
      | _ => None
      end
  end.

(** [schema.partial()]: every key of an object schema becomes optional. *)
Definition partial (schema : Schema) : Schema :=
  match schema with
  | ZObject shape => ZObject (prod_map id ZOptional <$> shape)
  | _ => schema
  end.

End Zod.

Import Zod.

Definition logtoUiCookieGuard : Schema :=
  partial
    (ZObject [("appId", ZString); ("organizationId", ZString);
              ("ui_locales", ZString)]).

(** The three fields of [LogtoUiCookie]. *)
Definition logtoUiCookieFields : list string :=
  ["appId"; "organizationId"; "ui_locales"].

(** A field read is acceptable when it yields [undefined] (the field is
    absent, which is all the guard can observe of absence) or a string. *)
Definition absentOrString (v : JsValue) : bool :=
  match v with
  | VUndefined | VString _ => true
  | _ => false
  end.

(** ** The header label as the specification words it *)

(** The header label read off the specification: when browser name and OS
    name are both present the combined phrase, otherwise the first present of
    browser name, OS name, generic name, and the placeholder when none is.
    [present] fixes what counts as present: [id] takes every defined string,
    [narrow] only the non-empty ones. *)
Definition headerTitleSpec (present : option string → option string)
    (sessionInfo : option SessionDisplayInfo) : ReactNode :=
  let browser := present (sessionInfo ≫= browserName) in
  let os := present (sessionInfo ≫= osName) in
  let generic := present (sessionInfo ≫= name) in
  match browser, os with
  | Some b, Some o =>
      DynamicT "user_details.sessions.browser_on_os" [("browser", b); ("os", o)]
  | _, _ => Text (nullish (nullish_or (nullish_or browser os) generic) "-")
  end.

(** ** A concrete runtime, for evaluating the definitions on examples *)

(** A session whose authorizations were written in the order
    [b], [10], [a], [2]. *)
Definition indexKeyedSession : GetUserSessionResponse unit :=
  {| payload := {| uid := "s1"; loginTs := None;
                   authorizations :=
                     fromEntries [("b", ()); ("10", ()); ("a", ());
                                  ("2", ())] |} |}.

(** A session whose user agent gave an empty browser name. *)
Definition emptyBrowserNameInfo : SessionDisplayInfo :=
  {| name := Some "Session"; ip := None; location := None;
     browserName := Some ""; osName := Some "macOS"; deviceModel := None |}.

Definition exampleImports : Imports unit :=
  {| toLocaleString :=
       λ t, match t with
            | Finite ms => "ms:" +:+ pretty ms
            | _ => "Invalid Date"
            end;
     isBuiltInApplicationId :=
       λ applicationId, bool_decide (applicationId ∈ ["admin-console"; "demo-app"]);
     getSessionDisplayInfo :=
       λ _, {| name := Some "Session"; ip := None; location := None;
               browserName := Some "Chrome"; osName := Some "macOS";
               deviceModel := None |} |}.

(** ** [UserSessionDetails/index.tsx]: links *)

Definition getDetailsTabNavLink (userId sessionId : string) : string :=
  "/users/" +:+ userId +:+ "/sessions/" +:+ sessionId.

(** [backLink={`/users/${userId}`}] of the page shell. *)
Definition backLink (userId : option string) : string :=
  "/users/" +:+ interpolate userId.

(** [href={getDetailsTabNavLink(userId ?? '', sessionId ?? '')}] of the
    details tab. *)
Definition tabNavHref (userId sessionId : option string) : string :=
  getDetailsTabNavLink (nullish userId "") (nullish sessionId "").

(** ** Reading rendered nodes *)

(** What a node puts on the page, in document order: its texts and
    elements, with fragments and arrays flattened and [null] left out. *)
Fixpoint leaves (n : ReactNode) : list ReactNode :=
  let fix each (ns : list ReactNode) : list ReactNode :=
    match ns with
    | [] => []
    | n :: ns => (leaves n ++ each ns)%list
    end in
  match n with
  | Null => []
  | Fragment _ children => each children
  | Nodes items => each items
  | Text _ | DynamicT _ _ | ApplicationName _ _ | UserName _ _ => [n]
  end.

(** The React keys of the items of a rendered array. *)
Definition fragmentKeys (n : ReactNode) : list string :=
  match n with
  | Nodes items =>
      omap (λ item, match item with
                    | Fragment k _ => Some k
                    | _ => None
                    end) items
  | _ => []
  end.

(** Whether a string is free of the path separator. *)
Fixpoint noSlash (s : string) : bool :=
  match s with
  | EmptyString => true
  | String c s' => negb (String.eqb (String c EmptyString) "/") && noSlash s'
  end.

(** * Properties *)

(** ** Timestamps *)

Section Timestamps.

Context {Grant : Type} `{!Imports Grant}.

Lemma timestamp_Finite (z : Z) :
  timestamp (Finite z)
  = Finite (if (z <? 1000000000000)%Z then z * 1000 else z).
Proof. unfold timestamp. simpl. by destruct (z <? 1000000000000)%Z. Qed.

Lemma formatTimestamp_falsy (value : option number) :
  from_option number_truthy false value = false →
  formatTimestamp value = "-".
Proof. destruct value as [v|]; simpl; [intros ->|]; done. Qed.

(** C3.  [formatTimestamp] returns the placeholder ["-"] for an absent or
    falsy value ([undefined], [0], [NaN]); for [0 < ts < 10^12] it formats
    the instant [ts * 1000]; for [ts >= 10^12] it formats the instant [ts]
    itself; and it yields a string for every input, without an error path. *)
Theorem formatTimestamp_cases :
  formatTimestamp None = "-"
  ∧ formatTimestamp (Some (Finite 0)) = "-"
  ∧ (∀ value, from_option number_truthy false value = false →
              formatTimestamp value = "-")
  ∧ (∀ ts : Z, (0 < ts < 1000000000000)%Z →
       formatTimestamp (Some (Finite ts)) = toLocaleString (Finite (ts * 1000)))
  ∧ (∀ ts : Z, (1000000000000 ≤ ts)%Z →
       formatTimestamp (Some (Finite ts)) = toLocaleString (Finite ts))
  ∧ (∀ value, ∃ s : string, formatTimestamp value = s).
Proof.
  split_and!; try done.
  - apply formatTimestamp_falsy.
  - intros ts [Hpos Hlt]. unfold formatTimestamp. simpl.
    destruct (Z.eqb_spec ts 0) as [->|_]; [lia|]. simpl.
    rewrite timestamp_Finite.
    by destruct (Z.ltb_spec ts 1000000000000); [|lia].
  - intros ts Hge. unfold formatTimestamp. simpl.
    destruct (Z.eqb_spec ts 0) as [->|_]; [lia|]. simpl.
    rewrite timestamp_Finite.
    by destruct (Z.ltb_spec ts 1000000000000); [lia|].
  - intros value. by eexists.
Qed.

End Timestamps.

Lemma formatTimestamp_cases_witness :
  (0 < 1700000000 < 1000000000000)%Z
  ∧ (1000000000000 ≤ 1700000000000)%Z
  ∧ @formatTimestamp unit exampleImports (Some (Finite 1700000000))
    = "ms:1700000000000"
  ∧ @formatTimestamp unit exampleImports (Some (Finite 1700000000000))
    = "ms:1700000000000"
  ∧ @formatTimestamp unit exampleImports (Some NaN) = "-".
Proof.
  destruct (@formatTimestamp_cases unit exampleImports)
    as (_ & _ & Hfalsy & Hsec & Hms & _).
  split_and!; try lia.
  - rewrite Hsec by lia. reflexivity.
  - rewrite Hms by lia. reflexivity.
  - apply Hfalsy. reflexivity.
Defined.

(** C4, counterexample.  The two inputs on either side of the threshold are
    in order, their instants are not: [999999999999] seconds becomes
    [999999999999000] ms, which is after [1000000000000] ms. *)
Lemma timestamp_order_reversed :
  (0 ≤ 999999999999 ≤ 1000000000000)%Z
  ∧ number_le (timestamp (Finite 999999999999))
              (timestamp (Finite 1000000000000)) = false.
Proof. split; [lia | reflexivity]. Qed.

(** C4, amended.  For non-negative [ts1 <= ts2] the instants are in the same
    order whenever both inputs lie on the same side of the [10^12]
    threshold; across the threshold they are in order exactly when
    [ts1 * 1000 <= ts2]. *)
Theorem timestamp_order (ts1 ts2 : Z) :
  (0 ≤ ts1 ≤ ts2)%Z →
  ((ts2 < 1000000000000 ∨ 1000000000000 ≤ ts1)%Z →
   number_le (timestamp (Finite ts1)) (timestamp (Finite ts2)) = true)
  ∧ ((ts1 < 1000000000000 ≤ ts2)%Z →
     (number_le (timestamp (Finite ts1)) (timestamp (Finite ts2)) = true
      ↔ (ts1 * 1000 ≤ ts2)%Z)).
Proof.
  intros [H0 Hle]. rewrite !timestamp_Finite. simpl.
  split.
  - intros Hside.
    destruct (Z.ltb_spec ts1 1000000000000), (Z.ltb_spec ts2 1000000000000);
      apply Z.leb_le; lia.
  - intros [Hlo Hhi].
    destruct (Z.ltb_spec ts1 1000000000000), (Z.ltb_spec ts2 1000000000000);
      lia.
Qed.

Lemma timestamp_order_witness :
  (0 ≤ 1700000000 ≤ 1700000060)%Z
  ∧ number_le (timestamp (Finite 1700000000)) (timestamp (Finite 1700000060))
    = true.
Proof.
  split; [lia|].
  destruct (timestamp_order 1700000000 1700000060) as [Hsame _]; [lia|].
  apply Hsame. lia.
Defined.

(** ** Header label *)

(** C8, at the failing input.  With an empty browser name and a real OS
    name the header is the empty string: neither the combined phrase (what
    the claim gives if the empty string counts as present) nor the OS name
    (what it gives if the empty string counts as absent).  The [&&] test
    treats the empty name as missing, the [??] fallback then fails to skip
    it. *)
Lemma headerTitle_empty_browserName :
  headerTitle (Some emptyBrowserNameInfo) = Text ""
  ∧ headerTitleSpec id (Some emptyBrowserNameInfo)
    = DynamicT "user_details.sessions.browser_on_os"
               [("browser", ""); ("os", "macOS")]
  ∧ headerTitleSpec narrow (Some emptyBrowserNameInfo) = Text "macOS"
  ∧ headerTitle (Some emptyBrowserNameInfo)
    ≠ headerTitleSpec id (Some emptyBrowserNameInfo)
  ∧ headerTitle (Some emptyBrowserNameInfo)
    ≠ headerTitleSpec narrow (Some emptyBrowserNameInfo).
Proof. by split_and!. Qed.

Lemma narrow_Some (s : option string) (x : string) :
  narrow s = Some x ↔ s = Some x ∧ x ≠ "".
Proof.
  unfold narrow, string_truthy. destruct s as [y|]; simpl.
  - destruct (String.eqb_spec y "") as [->|Hne]; simpl.
    + split; [done | intros [[= <-] Hx]; by destruct Hx].
    + split; [intros [= <-]; done | by intros [-> _]].
  - split; [done | by intros [? _]].
Qed.

(** Away from empty names the header follows the stated priority: when
    browser name and OS name are both present and non-empty it is the
    combined phrase, and whenever neither of them is the empty string it is
    what the specification's wording gives.  The middle statement records
    what the [??] chain returns in general. *)
Theorem headerTitle_priority (sessionInfo : option SessionDisplayInfo) :
  let browser := sessionInfo ≫= browserName in
  let os := sessionInfo ≫= osName in
  let generic := sessionInfo ≫= name in
  (∀ b o, browser = Some b → os = Some o → b ≠ "" → o ≠ "" →
     headerTitle sessionInfo
     = DynamicT "user_details.sessions.browser_on_os"
                [("browser", b); ("os", o)])
  ∧ (browser = None ∨ browser = Some "" ∨ os = None ∨ os = Some "" →
     headerTitle sessionInfo
     = Text (match browser, os, generic with
             | Some b, _, _ => b
             | None, Some o, _ => o
             | None, None, Some n => n
             | None, None, None => "-"
             end))
  ∧ (browser ≠ Some "" → os ≠ Some "" →
     headerTitle sessionInfo = headerTitleSpec id sessionInfo).
Proof.
  intros browser os generic. unfold headerTitle, headerTitleSpec.
  fold browser os generic. split_and!.
  - intros b o Hb Ho Hbne Hone.
    assert (narrow browser = Some b) as -> by by apply narrow_Some.
    assert (narrow os = Some o) as -> by by apply narrow_Some.
    done.
  - intros Hmissing.
    destruct (narrow browser) as [b|] eqn:Hnb, (narrow os) as [o|] eqn:Hno;
      [|by destruct browser, os, generic..].
    apply narrow_Some in Hnb as [Hb Hbne], Hno as [Ho Hone].
    destruct Hmissing as [?|[?|[?|?]]]; congruence.
  - intros Hb Ho. simpl.
    destruct browser as [b|], os as [o|].
    + assert (narrow (Some b) = Some b) as ->
        by (apply narrow_Some; split; congruence).
      assert (narrow (Some o) = Some o) as ->
        by (apply narrow_Some; split; congruence).
      done.
    + by destruct (narrow (Some b)).
    + by destruct (narrow (Some o)).
    + done.
Qed.

Lemma headerTitle_priority_witness :
  headerTitle
    (Some {| name := Some "Session"; ip := None; location := None;
             browserName := Some "Chrome"; osName := Some "macOS";
             deviceModel := None |})
  = DynamicT "user_details.sessions.browser_on_os"
             [("browser", "Chrome"); ("os", "macOS")]
  ∧ headerTitle
      (Some {| name := Some "Session"; ip := None; location := None;
               browserName := Some "Chrome"; osName := None;
               deviceModel := None |})
    = Text "Chrome"
  ∧ headerTitle None = Text "-".
Proof.
  split_and!.
  - by apply (headerTitle_priority
                (Some {| name := Some "Session"; ip := None; location := None;
                         browserName := Some "Chrome"; osName := Some "macOS";
                         deviceModel := None |})).
  - destruct (headerTitle_priority
                (Some {| name := Some "Session"; ip := None; location := None;
                         browserName := Some "Chrome"; osName := None;
                         deviceModel := None |})) as (_ & Hfallback & _).
    apply Hfallback. simpl. auto.
  - destruct (headerTitle_priority None) as (_ & Hfallback & _).
    apply Hfallback. simpl. auto.
Defined.

(** ** Objects and their keys *)

Section Objects.

Context {V : Type}.
Implicit Types (o : object V) (k : string) (v : V).

Lemma names_set o k v :
  names (set o k v)
  = if bool_decide (k ∈ names o) then names o else names o ++ [k].
Proof.
  induction o as [|[k' v'] o IH]; [done|]. simpl.
  destruct (String.eqb_spec k' k) as [->|Hne]; simpl.
  - by rewrite bool_decide_eq_true_2 by left.
  - unfold names in *. rewrite IH.
    destruct (decide (k ∈ o.*1)) as [Hin|Hnin].
    + rewrite !bool_decide_eq_true_2; [done | by right | done].
    + rewrite !bool_decide_eq_false_2; [done | | done].
      rewrite elem_of_cons. intros [->|?]; done.
Qed.

Lemma elem_of_names_set o k v x :
  x ∈ names (set o k v) ↔ x = k ∨ x ∈ names o.
Proof.
  rewrite names_set. case_bool_decide as Hin.
  - split; [by right | by intros [->|?]].
  - rewrite elem_of_app, list_elem_of_singleton. tauto.
Qed.

Lemma NoDup_names_set o k v : NoDup (names o) → NoDup (names (set o k v)).
Proof.
  intros Hnd. rewrite names_set. case_bool_decide as Hin; [done|].
  apply NoDup_app. split_and!; [done | | apply NoDup_singleton].
  intros x Hx ->%list_elem_of_singleton. done.
Qed.

Lemma names_foldl_set (entries : list (string * V)) o :
  NoDup (names o) →
  NoDup (names (foldl (λ o kv, set o kv.1 kv.2) o entries))
  ∧ ∀ x, x ∈ names (foldl (λ o kv, set o kv.1 kv.2) o entries)
         ↔ x ∈ names o ∨ x ∈ entries.*1.
Proof.
  revert o. induction entries as [|[k v] entries IH]; intros o Hnd; simpl.
  - split; [done|]. intros x. rewrite elem_of_nil. tauto.
  - destruct (IH (set o k v)) as [Hnd' Hin]; [by apply NoDup_names_set|].
    split; [done|]. intros x.
    rewrite Hin, elem_of_names_set, elem_of_cons. tauto.
Qed.

Lemma names_foldl_set_distinct (entries : list (string * V)) o :
  NoDup (names o ++ entries.*1) →
  names (foldl (λ o kv, set o kv.1 kv.2) o entries) = names o ++ entries.*1.
Proof.
  revert o. induction entries as [|[k v] entries IH]; intros o Hnd; simpl.
  - by rewrite app_nil_r.
  - assert (k ∉ names o) as Hk.
    { apply NoDup_app in Hnd as (_ & Hdisj & _).
      intros Hin. apply (Hdisj k Hin). by left. }
    assert (names (set o k v) = names o ++ [k]) as Hset.
    { rewrite names_set. by rewrite bool_decide_eq_false_2. }
    rewrite IH; rewrite Hset, <-app_assoc; done.
Qed.

(** The names of an object read from a list of members are pairwise
    distinct, are exactly the member names, and are in the order the names
    were written when no name is repeated. *)
Lemma names_fromEntries (entries : list (string * V)) :
  NoDup (names (fromEntries entries))
  ∧ (∀ x, x ∈ names (fromEntries entries) ↔ x ∈ entries.*1)
  ∧ (NoDup entries.*1 → names (fromEntries entries) = entries.*1).
Proof.
  unfold fromEntries.
  destruct (names_foldl_set entries []) as [Hnd Hin]; [apply NoDup_nil_2|].
  split_and!; [done | |].
  - intros x. rewrite Hin. simpl. rewrite elem_of_nil. tauto.
  - intros Hdistinct. by rewrite names_foldl_set_distinct.
Qed.

#[local] Instance indexLe_total : Total indexLe.
Proof. intros a b. unfold indexLe. lia. Qed.

(** [Object.keys] lists every name once. *)
Lemma keys_Permutation o : keys o ≡ₚ names o.
Proof.
  unfold keys. rewrite merge_sort_Permutation. apply filter_app_complement.
Qed.

Lemma elem_of_keys o k : k ∈ keys o ↔ k ∈ names o.
Proof. by rewrite keys_Permutation. Qed.

Lemma NoDup_keys o : NoDup (keys o) ↔ NoDup (names o).
Proof. by rewrite keys_Permutation. Qed.

(** The array indices among the keys come first and ascend. *)
Lemma keys_index_sorted o :
  Sorted indexLe
    (merge_sort indexLe (filter (λ k, is_Some (arrayIndex k)) (names o))).
Proof. apply (Sorted_merge_sort indexLe). Qed.

(** Without array indices among the names, [Object.keys] is creation
    order. *)
Lemma keys_no_index o :
  (∀ k, k ∈ names o → arrayIndex k = None) → keys o = names o.
Proof.
  intros Hnone. unfold keys.
  assert (filter (λ k, is_Some (arrayIndex k)) (names o) = []) as ->.
  { induction (names o) as [|k l IH]; [done|].
    rewrite filter_cons_False.
    - apply IH. intros k' Hk'. apply Hnone. by right.
    - rewrite Hnone by by left. by intros [? ?]. }
  simpl. induction (names o) as [|k l IH]; [done|].
  rewrite filter_cons_True.
  - f_equal. apply IH. intros k' Hk'. apply Hnone. by right.
  - rewrite Hnone by by left. by intros [? ?].
Qed.

(** The keys of an object read from a list of members are pairwise
    distinct and are exactly the member names. *)
Lemma keys_fromEntries (entries : list (string * V)) :
  NoDup (keys (fromEntries entries))
  ∧ (∀ x, x ∈ keys (fromEntries entries) ↔ x ∈ entries.*1)
  ∧ length (keys (fromEntries entries)) = length (remove_dups entries.*1).
Proof.
  destruct (names_fromEntries entries) as (Hnd & Hin & _).
  assert (∀ x, x ∈ keys (fromEntries entries) ↔ x ∈ entries.*1) as Hin'.
  { intros x. by rewrite elem_of_keys. }
  split_and!; [by apply NoDup_keys | done |].
  apply Permutation_length, NoDup_Permutation;
    [by apply NoDup_keys | apply NoDup_remove_dups |].
  intros x. by rewrite Hin', elem_of_remove_dups.
Qed.

End Objects.

(** ** Authorised applications *)

Lemma renderedApplications_Nodes (items : list ReactNode) :
  renderedApplications (Nodes items) = items ≫= renderedApplications.
Proof.
  simpl. induction items as [|n items IH]; [done|].
  by rewrite bind_cons, <-IH.
Qed.

Section Applications.

Context {Grant : Type} `{!Imports Grant}.

Lemma renderedApplications_imap (separator : nat → ReactNode)
    (link : string → bool) (ids : list string) :
  (∀ index, renderedApplications (separator index) = []) →
  imap (λ index applicationId,
          Fragment applicationId
            [separator index; ApplicationName applicationId (link applicationId)])
       ids ≫= renderedApplications
  = (λ applicationId, (applicationId, link applicationId)) <$> ids.
Proof.
  revert separator. induction ids as [|x ids IH]; intros separator Hsep; [done|].
  rewrite imap_cons, bind_cons, fmap_cons.
  rewrite <-(IH (separator ∘ S)) by (intros index; apply Hsep).
  simpl. by rewrite Hsep.
Qed.

Lemma renderedApplications_applications (d : GetUserSessionResponse Grant) :
  renderedApplications (applications (Some d))
  = (λ applicationId,
       (applicationId, negb (isBuiltInApplicationId applicationId)))
    <$> keys (authorizations (payload d)).
Proof.
  unfold applications.
  destruct (keys (authorizations (payload d))) as [|x ids] eqn:Hkeys; [done|].
  cbn [length Nat.eqb]. rewrite renderedApplications_Nodes.
  apply (renderedApplications_imap
           (λ index, if (0 <? index)%nat then Text ", " else Null)).
  intros index. by destruct (0 <? index)%nat.
Qed.

(** C6, counterexample.  Authorizations written in the order [b], [10],
    [a], [2] are rendered in the order [2], [10], [b], [a]: the keys that are
    array indices come first, in ascending numeric order, so the order is
    not the order of insertion. *)
Lemma applications_index_keys_first :
  names (authorizations (payload indexKeyedSession)) = ["b"; "10"; "a"; "2"]
  ∧ (renderedApplications
       (@applications unit exampleImports (Some indexKeyedSession))).*1
    = ["2"; "10"; "b"; "a"]
  ∧ (renderedApplications
       (@applications unit exampleImports (Some indexKeyedSession))).*1
    ≠ names (authorizations (payload indexKeyedSession)).
Proof. by vm_compute. Qed.

(** C6, amended.  For a present session record whose authorizations were
    read from any list of members, the page renders exactly one
    [ApplicationName] per distinct key, without duplicate ids, in the order
    of [Object.keys]: the keys that are array indices first, in ascending
    numeric order, then the other keys in the order they were written, which
    is the order of insertion whenever no key is an array index.  Each is a
    link exactly when [isBuiltInApplicationId] is [false] for it; and for an
    absent record or an empty mapping the output is the placeholder ["-"],
    not an empty sequence. *)
Theorem applications_references (sessionUid : string)
    (ts : option number) (entries : list (string * Grant)) :
  let d := {| payload := {| uid := sessionUid; loginTs := ts;
                            authorizations := fromEntries entries |} |} in
  let ids := keys (fromEntries entries) in
  let written := names (fromEntries entries) in
  renderedApplications (applications (Some d))
  = (λ applicationId,
       (applicationId, negb (isBuiltInApplicationId applicationId))) <$> ids
  ∧ (renderedApplications (applications (Some d))).*1 = ids
  ∧ NoDup ids
  ∧ (∀ applicationId, applicationId ∈ ids ↔ applicationId ∈ entries.*1)
  ∧ length (renderedApplications (applications (Some d)))
    = length (remove_dups entries.*1)
  ∧ ids = merge_sort indexLe (filter (λ k, is_Some (arrayIndex k)) written)
          ++ filter (λ k, ¬ is_Some (arrayIndex k)) written
  ∧ Sorted indexLe
      (merge_sort indexLe (filter (λ k, is_Some (arrayIndex k)) written))
  ∧ (NoDup entries.*1 → written = entries.*1)
  ∧ (NoDup entries.*1 →
     (∀ k, k ∈ entries.*1 → arrayIndex k = None) →
     ids = entries.*1)
  ∧ (∀ applicationId isLink,
       (applicationId, isLink) ∈ renderedApplications (applications (Some d)) →
       (isLink = true ↔ isBuiltInApplicationId applicationId = false))
  ∧ (entries = [] → applications (Some d) = Text "-")
  ∧ applications None = Text "-"
  ∧ Text "-" ≠ Nodes [].
Proof.
  intros d ids written.
  destruct (keys_fromEntries entries) as (Hnd & Hin & Hlen).
  destruct (names_fromEntries entries) as (_ & Hnames & Hord).
  pose proof (renderedApplications_applications d) as Hrendered.
  simpl in Hrendered. fold ids in Hrendered.
  split_and!; try done.
  - rewrite Hrendered, <-list_fmap_compose. apply list_fmap_id.
  - by rewrite Hrendered, length_fmap.
  - apply keys_index_sorted.
  - intros Hdistinct Hnoindex. unfold ids. rewrite keys_no_index.
    + by apply Hord.
    + intros k Hk. apply Hnoindex. by apply Hnames.
  - intros applicationId isLink. rewrite Hrendered.
    intros (x & [= -> ->] & _)%list_elem_of_fmap.
    by destruct (isBuiltInApplicationId x).
  - by intros ->.
Qed.

End Applications.

Lemma applications_references_witness :
  let d : GetUserSessionResponse unit :=
    {| payload := {| uid := "s1"; loginTs := None;
                     authorizations :=
                       fromEntries [("app-b", ()); ("admin-console", ());
                                    ("app-a", ())] |} |} in
  NoDup ["app-b"; "admin-console"; "app-a"]
  ∧ (∀ k, k ∈ ["app-b"; "admin-console"; "app-a"] → arrayIndex k = None)
  ∧ renderedApplications (@applications unit exampleImports (Some d))
    = [("app-b", true); ("admin-console", false); ("app-a", true)].
Proof.
  intros d.
  assert (NoDup ["app-b"; "admin-console"; "app-a"]) as Hnd.
  { apply (bool_decide_unpack _). by vm_compute. }
  assert (∀ k, k ∈ ["app-b"; "admin-console"; "app-a"] → arrayIndex k = None)
    as Hnoindex.
  { intros k. rewrite !elem_of_cons, elem_of_nil.
    intros [->|[->|[->|[]]]]; reflexivity. }
  split_and!; [done | done |].
  destruct (@applications_references unit exampleImports "s1" None
              [("app-b", ()); ("admin-console", ()); ("app-a", ())])
    as (Hrendered & _ & _ & _ & _ & _ & _ & _ & Hord & _).
  unfold d. rewrite Hrendered, Hord by done. reflexivity.
Defined.

(** ** Info fields *)

Section InfoFields.

Context {Grant : Type} `{!Imports Grant}.

(** C9.  Without a session record the field list is empty; with one it is
    the nine fields in display order, whose keys are pairwise distinct. *)
Theorem infoFields_keys (routeUserId : option string) :
  infoFields None routeUserId = []
  ∧ ∀ d : GetUserSessionResponse Grant,
      key <$> infoFields (Some d) routeUserId
      = ["session-id"; "user"; "applications"; "signed-in-at"; "ip";
         "location"; "browser-name"; "os-name"; "device-model"]
      ∧ NoDup (key <$> infoFields (Some d) routeUserId).
Proof.
  split; [done|]. intros d.
  assert (key <$> infoFields (Some d) routeUserId
          = ["session-id"; "user"; "applications"; "signed-in-at"; "ip";
             "location"; "browser-name"; "os-name"; "device-model"]) as Hkeys
    by done.
  split; [done|]. rewrite Hkeys.
  apply (bool_decide_unpack _). by vm_compute.
Qed.

End InfoFields.

(** ** Strings *)

Lemma app_cons (c : Ascii.ascii) (s t : string) :
  String c s +:+ t = String c (s +:+ t).
Proof. done. Qed.

Lemma app_empty_l (t : string) : "" +:+ t = t.
Proof. done. Qed.

Lemma length_app (s t : string) :
  String.length (s +:+ t) = String.length s + String.length t.
Proof.
  induction s as [|c s IH]; [done|].
  rewrite app_cons. simpl. by rewrite IH.
Qed.

Lemma app_assoc_string (s t r : string) : (s +:+ t) +:+ r = s +:+ t +:+ r.
Proof.
  induction s as [|c s IH]; [done|].
  rewrite !app_cons. by rewrite IH.
Qed.

Lemma app_inj_same_length (s s' t t' : string) :
  String.length s = String.length s' →
  s +:+ t = s' +:+ t' → s = s' ∧ t = t'.
Proof.
  revert s'. induction s as [|c s IH]; intros [|c' s'] Hlen Heq;
    simpl in Hlen; try discriminate Hlen.
  - done.
  - rewrite !app_cons in Heq. injection Heq as -> Heq. injection Hlen as Hlen.
    destruct (IH s' Hlen Heq) as [-> ->]. done.
Qed.

Lemma app_inj_r (s s' t : string) : s +:+ t = s' +:+ t → s = s'.
Proof.
  intros Heq. apply (app_inj_same_length s s' t t); [|done].
  apply (f_equal String.length) in Heq. rewrite !length_app in Heq. lia.
Qed.

Lemma noSlash_cons (c : Ascii.ascii) (s : string) :
  noSlash (String c s) = true ↔ String c "" ≠ "/" ∧ noSlash s = true.
Proof.
  change (noSlash (String c s))
    with (negb (String.eqb (String c "") "/") && noSlash s).
  rewrite andb_true_iff, negb_true_iff.
  destruct (String.eqb_spec (String c "") "/") as [Heq|Hne].
  - split; [by intros [? _] | intros [Hne _]; by destruct Hne].
  - split; [by intros [_ ?] | by intros [_ ?]].
Qed.

Lemma first_slash (u u' r r' : string) :
  noSlash u = true → noSlash u' = true →
  u +:+ "/" +:+ r = u' +:+ "/" +:+ r' → u = u' ∧ r = r'.
Proof.
  revert u'. induction u as [|c u IH]; intros [|c' u'] Hu Hu' Heq;
    rewrite ?app_cons, ?app_empty_l in Heq.
  - by injection Heq as ->.
  - apply noSlash_cons in Hu' as [Hc' _]. injection Heq as <- _. done.
  - apply noSlash_cons in Hu as [Hc _]. injection Heq as -> _. done.
  - apply noSlash_cons in Hu as [_ Hu]. apply noSlash_cons in Hu' as [_ Hu'].
    injection Heq as -> Heq. destruct (IH u' Hu Hu' Heq) as [-> ->]. done.
Qed.

Lemma sessionListKey_inj (u u' : string) :
  sessionListKey u = sessionListKey u' → u = u'.
Proof.
  unfold sessionListKey. intros Heq%(inj (String.app "api/users/")).
  by apply app_inj_r in Heq.
Qed.

(** ** Revoking a session *)

Lemma exec_onRevokeCallback (u : string) (w : World) :
  exec (onRevokeCallback u) w
  = {| showRevokeConfirmModal := false;
       revalidations := revalidate (sessionListKey u) (revalidations w);
       historyIndex := historyIndex w + -1;
       calls := calls w ++ [SetShowRevokeConfirmModal false;
                            MutateGlobal (sessionListKey u);
                            Navigate (-1)] |}.
Proof.
  unfold exec, onRevokeCallback, andThen. simpl. unfold record. simpl.
  by rewrite <-!app_assoc.
Qed.

Lemma revokeModal_Some (uid sid : option string) (w : World)
    (props : RevokeSessionConfirmModalProps) :
  revokeModal uid sid w = Some props →
  ∃ u s, uid = Some u ∧ sid = Some s ∧ u ≠ "" ∧ s ≠ ""
         ∧ props = {| modalUserId := u;
                      modalSessionId := s;
                      isOpen := showRevokeConfirmModal w;
                      modalOnCancel := onCancel;
                      modalOnRevokeCallback := onRevokeCallback u |}.
Proof.
  unfold revokeModal.
  destruct (narrow uid) as [u|] eqn:Hu; [|done].
  destruct (narrow sid) as [s|] eqn:Hs; [|done].
  apply narrow_Some in Hu as [-> Hu]. apply narrow_Some in Hs as [-> Hs].
  intros [= <-]. by exists u, s.
Qed.

Lemma revokeModal_None (uid sid : option string) (w : World) :
  string_truthy uid = false ∨ string_truthy sid = false →
  revokeModal uid sid w = None.
Proof.
  unfold revokeModal, narrow.
  intros [->| ->]; [done|]. by destruct (string_truthy uid), uid.
Qed.

Lemma string_truthy_Some (u : string) : u ≠ "" → string_truthy (Some u) = true.
Proof. intros Hu. simpl. by destruct (String.eqb_spec u ""). Qed.

Lemma sessionKey_Some (u s : string) :
  u ≠ "" → s ≠ "" →
  sessionKey (Some u) (Some s)
  = Some ("api/users/" +:+ u +:+ "/sessions/" +:+ s)
  ∧ fetched (sessionKey (Some u) (Some s))
    = Some ("api/users/" +:+ u +:+ "/sessions/" +:+ s).
Proof.
  intros Hu Hs. unfold fetched, sessionKey, and_string.
  by rewrite !string_truthy_Some.
Qed.

Lemma sessionKey_falsy (uid sid : option string) :
  string_truthy uid = false ∨ string_truthy sid = false →
  fetched (sessionKey uid sid) = None.
Proof.
  unfold fetched, sessionKey, and_string, narrow. intros [Hu|Hs].
  - by rewrite !Hu.
  - destruct (string_truthy uid) eqn:Hu; by rewrite ?Hs, ?Hu.
Qed.

Lemma fetched_sessionKey (uid sid : option string) (detailKey : string) :
  fetched (sessionKey uid sid) = Some detailKey →
  ∃ u s, uid = Some u ∧ sid = Some s
         ∧ detailKey = "api/users/" +:+ u +:+ "/sessions/" +:+ s.
Proof.
  destruct (string_truthy uid) eqn:Hu; [destruct (string_truthy sid) eqn:Hs|].
  - destruct uid as [u|], sid as [s|]; try done.
    unfold fetched, sessionKey, and_string. rewrite Hu, Hs.
    intros [[= <-] _]%narrow_Some. by exists u, s.
  - rewrite sessionKey_falsy by by right. done.
  - rewrite sessionKey_falsy by by left. done.
Qed.

Lemma run_cons (p : Page) (e : Event) (events : list Event) :
  run p (e :: events) = run (pageStep p e) events.
Proof. done. Qed.

(** C1.  The revoke callback closes the confirmation modal, then
    invalidates the session-list entry [api/users/{userId}/sessions] of this
    user, a key no other user's list has, then navigates back one step:
    exactly these three calls, each once, in this order.  A page that is
    executing a revoke runs exactly this callback when the backend
    acknowledges, and the whole happy path from a freshly mounted page makes
    the calls listed. *)
Theorem onRevokeCallback_effects (u s : string) (w : World) :
  let w' := exec (onRevokeCallback u) w in
  let listKey := "api/users/" +:+ u +:+ "/sessions" in
  calls w' = calls w ++ [SetShowRevokeConfirmModal false;
                         MutateGlobal listKey;
                         Navigate (-1)]
  ∧ (∀ u', "api/users/" +:+ u' +:+ "/sessions" = listKey → u' = u)
  ∧ showRevokeConfirmModal w' = false
  ∧ revalidations w' !! listKey
    = Some (S (default 0 (revalidations w !! listKey)))
  ∧ (∀ k, k ≠ listKey → revalidations w' !! k = revalidations w !! k)
  ∧ historyIndex w' = (historyIndex w - 1)%Z
  ∧ (u ≠ "" → s ≠ "" →
     (∀ loaded,
        pageStep {| userId := Some u; sessionId := Some s;
                    hasSessionData := loaded; phase := Executing;
                    world := w |} BackendAck
        = {| userId := Some u; sessionId := Some s;
             hasSessionData := loaded; phase := Succeeded; world := w' |})
     ∧ phase (run (mount (Some u) (Some s) true)
                  [InvokeRevoke; Confirm; BackendAck]) = Succeeded
     ∧ calls (world (run (mount (Some u) (Some s) true)
                         [InvokeRevoke; Confirm; BackendAck]))
       = [SetShowRevokeConfirmModal true; RevokeCommand u s;
          SetShowRevokeConfirmModal false; MutateGlobal listKey;
          Navigate (-1)]).
Proof.
  intros w' listKey. unfold w', listKey. rewrite exec_onRevokeCallback.
  unfold sessionListKey. simpl.
  split_and!; try done.
  { intros u' Heq. by apply sessionListKey_inj. }
  { unfold revalidate. by rewrite lookup_insert_eq. }
  { intros k Hk. unfold revalidate. by rewrite lookup_insert_ne. }
  intros Hu Hs.
  assert (narrow (Some u) = Some u) as Hnu by by apply narrow_Some.
  assert (narrow (Some s) = Some s) as Hns by by apply narrow_Some.
  assert (∀ loaded w0,
            pageStep {| userId := Some u; sessionId := Some s;
                        hasSessionData := loaded; phase := Executing;
                        world := w0 |} BackendAck
            = {| userId := Some u; sessionId := Some s;
                 hasSessionData := loaded; phase := Succeeded;
                 world := exec (onRevokeCallback u) w0 |}) as Hack.
  { intros loaded w0. unfold pageStep, revokeModal. simpl.
    by rewrite Hnu, Hns. }
  destruct (sessionKey_Some u s Hu Hs) as [_ Hfetched].
  split_and!.
  - intros loaded. by rewrite Hack, exec_onRevokeCallback.
  - unfold run, mount. rewrite Hfetched. simpl.
    unfold pageStep at 3. simpl.
    unfold pageStep at 2, revokeModal. simpl. rewrite Hnu, Hns. simpl.
    by rewrite Hack.
  - unfold run, mount. rewrite Hfetched. simpl.
    unfold pageStep at 3. simpl.
    unfold pageStep at 2, revokeModal. simpl. rewrite Hnu, Hns. simpl.
    by rewrite Hack, exec_onRevokeCallback.
Qed.

Lemma onRevokeCallback_effects_witness :
  "u7" ≠ "" ∧ "s3" ≠ ""
  ∧ phase (run (mount (Some "u7") (Some "s3") true)
               [InvokeRevoke; Confirm; BackendAck]) = Succeeded
  ∧ calls (world (run (mount (Some "u7") (Some "s3") true)
                      [InvokeRevoke; Confirm; BackendAck]))
    = [SetShowRevokeConfirmModal true; RevokeCommand "u7" "s3";
       SetShowRevokeConfirmModal false; MutateGlobal "api/users/u7/sessions";
       Navigate (-1)]
  ∧ calls (exec (onRevokeCallback "u1")
                (world (mount (Some "u1") (Some "s1") true)))
    = [SetShowRevokeConfirmModal false; MutateGlobal "api/users/u1/sessions";
       Navigate (-1)].
Proof.
  assert ("u7" ≠ "") as Hu by done. assert ("s3" ≠ "") as Hs by done.
  destruct (onRevokeCallback_effects "u7" "s3"
              (world (mount (Some "u7") (Some "s3") true)))
    as (_ & _ & _ & _ & _ & _ & Hpage).
  destruct (Hpage Hu Hs) as (_ & Hphase & Hcalls).
  destruct (onRevokeCallback_effects "u1" "s1"
              (world (mount (Some "u1") (Some "s1") true)))
    as (Hcallback & _).
  by split_and!.
Defined.

(** A step other than a backend acknowledgement leaves the cache and the
    history alone. *)
Lemma pageStep_no_ack (p : Page) (e : Event) :
  e ≠ BackendAck →
  filter isInvalidationOrNavigation (calls (world (pageStep p e)))
  = filter isInvalidationOrNavigation (calls (world p))
  ∧ revalidations (world (pageStep p e)) = revalidations (world p)
  ∧ historyIndex (world (pageStep p e)) = historyIndex (world p).
Proof.
  intros He. unfold pageStep.
  destruct e; try done.
  - destruct (hasSessionData p); [|done]. simpl.
    by rewrite filter_app, app_nil_r.
  - destruct (revokeModal _ _ _) as [props|] eqn:Hmodal; [|done].
    apply revokeModal_Some in Hmodal as (u & s & _ & _ & _ & _ & ->).
    destruct (phase p); try done. simpl.
    by rewrite filter_app, app_nil_r.
  - destruct (revokeModal _ _ _) as [props|] eqn:Hmodal; [|done].
    apply revokeModal_Some in Hmodal as (u & s & _ & _ & _ & _ & ->).
    destruct (phase p); try done. simpl.
    by rewrite filter_app, app_nil_r.
  - destruct (revokeModal _ _ _) as [props|] eqn:Hmodal; [|done].
    apply revokeModal_Some in Hmodal as (u & s & _ & _ & _ & _ & ->).
    destruct (phase p); try done. simpl.
    by rewrite filter_app, app_nil_r.
Qed.

Lemma run_no_ack (events : list Event) (p : Page) :
  BackendAck ∉ events →
  filter isInvalidationOrNavigation (calls (world (run p events)))
  = filter isInvalidationOrNavigation (calls (world p))
  ∧ revalidations (world (run p events)) = revalidations (world p)
  ∧ historyIndex (world (run p events)) = historyIndex (world p).
Proof.
  revert p. induction events as [|e events IH]; intros p Hnoack; [done|].
  apply not_elem_of_cons in Hnoack as [He Hrest].
  rewrite run_cons.
  destruct (IH (pageStep p e) Hrest) as (-> & -> & ->).
  by apply pageStep_no_ack.
Qed.

(** C2.  When the backend reports an error to an executing revoke, the page
    records the error and nothing else: no cache entry is invalidated, the
    history does not move, and the coordinator is idle again.  More
    generally, whatever the operator does, as long as no backend
    acknowledgement has arrived no invalidation and no navigation has been
    made. *)
Theorem revoke_failure_no_invalidation (p : Page) (events : list Event) :
  (phase p = Executing →
   is_Some (revokeModal (userId p) (sessionId p) (world p)) →
   phase (pageStep p BackendError) = Idle
   ∧ calls (world (pageStep p BackendError)) = calls (world p) ++ [SurfaceError]
   ∧ revalidations (world (pageStep p BackendError)) = revalidations (world p)
   ∧ historyIndex (world (pageStep p BackendError)) = historyIndex (world p))
  ∧ (BackendAck ∉ events →
     filter isInvalidationOrNavigation (calls (world (run p events)))
     = filter isInvalidationOrNavigation (calls (world p))
     ∧ revalidations (world (run p events)) = revalidations (world p)
     ∧ historyIndex (world (run p events)) = historyIndex (world p)).
Proof.
  split; [|apply run_no_ack].
  intros Hphase [props Hmodal]. unfold pageStep. rewrite Hmodal, Hphase.
  done.
Qed.

Lemma revoke_failure_no_invalidation_witness :
  let p := run (mount (Some "u1") (Some "s1") true) [InvokeRevoke; Confirm] in
  phase p = Executing
  ∧ phase (pageStep p BackendError) = Idle
  ∧ calls (world (pageStep p BackendError))
    = [SetShowRevokeConfirmModal true; RevokeCommand "u1" "s1"; SurfaceError]
  ∧ filter isInvalidationOrNavigation
      (calls (world (run p [BackendError; InvokeRevoke; Cancel])))
    = [].
Proof.
  intros p.
  assert (phase p = Executing) as Hphase by reflexivity.
  assert (is_Some (revokeModal (userId p) (sessionId p) (world p))) as Hmodal
    by (by eexists).
  assert (BackendAck ∉ [BackendError; InvokeRevoke; Cancel]) as Hnoack.
  { rewrite !not_elem_of_cons. split_and!; try done. apply not_elem_of_nil. }
  destruct (revoke_failure_no_invalidation p
              [BackendError; InvokeRevoke; Cancel])
    as [Hstep Hrun].
  destruct (Hstep Hphase Hmodal) as (Hidle & Hcalls & _ & _).
  destruct (Hrun Hnoack) as (Hfilter & _ & _).
  split_and!; [done | done | by rewrite Hcalls | by rewrite Hfilter].
Defined.

Lemma pageStep_without_ids (p : Page) (e : Event) :
  string_truthy (userId p) = false ∨ string_truthy (sessionId p) = false →
  userId (pageStep p e) = userId p
  ∧ sessionId (pageStep p e) = sessionId p
  ∧ hasSessionData (pageStep p e) = hasSessionData p
  ∧ (phase p ≠ Executing → phase (pageStep p e) ≠ Executing)
  ∧ filter isRevokeCommand (calls (world (pageStep p e)))
    = filter isRevokeCommand (calls (world p)).
Proof.
  intros Hids. unfold pageStep.
  rewrite (revokeModal_None _ _ (world p) Hids).
  destruct e; simpl; try done.
  destruct (hasSessionData p); simpl; [|done].
  split_and!; try done.
  - by destruct (phase p).
  - by rewrite filter_app, app_nil_r.
Qed.

Lemma run_without_ids (events : list Event) (p : Page) :
  string_truthy (userId p) = false ∨ string_truthy (sessionId p) = false →
  phase p ≠ Executing →
  phase (run p events) ≠ Executing
  ∧ filter isRevokeCommand (calls (world (run p events)))
    = filter isRevokeCommand (calls (world p)).
Proof.
  revert p. induction events as [|e events IH]; intros p Hids Hphase; [done|].
  rewrite run_cons.
  destruct (pageStep_without_ids p e Hids) as (Hu & Hs & _ & Hph & Hcalls).
  destruct (IH (pageStep p e)) as [Hphase' Hcalls'].
  - by rewrite Hu, Hs.
  - by apply Hph.
  - split; [done|]. by rewrite Hcalls', Hcalls.
Qed.

(** C5.  When [userId] or [sessionId] is missing or empty, the confirmation
    modal is not rendered and the single-session key is not requested; and
    whatever the operator does on such a page, the coordinator never
    executes and no revoke command is issued. *)
Theorem revoke_unreachable_without_ids (uid sid : option string)
    (loaded : bool) (events : list Event) :
  string_truthy uid = false ∨ string_truthy sid = false →
  let p := run (mount uid sid loaded) events in
  (∀ w, revokeModal uid sid w = None)
  ∧ fetched (sessionKey uid sid) = None
  ∧ phase p ≠ Executing
  ∧ filter isRevokeCommand (calls (world p)) = [].
Proof.
  intros Hids p.
  split_and!.
  - intros w. by apply revokeModal_None.
  - by apply sessionKey_falsy.
  - by apply run_without_ids.
  - unfold p. by destruct (run_without_ids events (mount uid sid loaded)) as [_ ->].
Qed.

Lemma revoke_unreachable_without_ids_witness :
  let p := run (mount (Some "u1") None true)
               [InvokeRevoke; Confirm; BackendAck; Confirm] in
  string_truthy None = false
  ∧ phase p ≠ Executing
  ∧ filter isRevokeCommand (calls (world p)) = []
  ∧ fetched (sessionKey (Some "u1") (Some "")) = None.
Proof.
  intros p.
  assert (string_truthy (Some "u1") = false ∨ string_truthy None = false)
    as Hnone by (by right).
  assert (string_truthy (Some "u1") = false
          ∨ string_truthy (Some "") = false) as Hempty by (by right).
  destruct (revoke_unreachable_without_ids (Some "u1") None true
              [InvokeRevoke; Confirm; BackendAck; Confirm] Hnone)
    as (_ & _ & Hphase & Hcalls).
  destruct (revoke_unreachable_without_ids (Some "u1") (Some "") true []
              Hempty) as (_ & Hkey & _ & _).
  by split_and!.
Defined.

Lemma sessionKey_ne_sessionListKey (u s : string) :
  "api/users/" +:+ u +:+ "/sessions/" +:+ s ≠ sessionListKey u.
Proof.
  unfold sessionListKey. intros Heq.
  apply (inj (String.app "api/users/")) in Heq.
  apply (inj (String.app u)) in Heq.
  discriminate Heq.
Qed.

(** C7.  The revoke callback touches the cache only under the session-list
    key of this user: every other entry, the single-session entry of the
    page in particular, is left as it was, and the single-session [mutate]
    is not among the calls made. *)
Theorem onRevokeCallback_frame (u : string) (sid : option string) (w : World) :
  let w' := exec (onRevokeCallback u) w in
  (∀ k, k ≠ sessionListKey u → revalidations w' !! k = revalidations w !! k)
  ∧ (∀ detailKey, fetched (sessionKey (Some u) sid) = Some detailKey →
       detailKey ≠ sessionListKey u
       ∧ revalidations w' !! detailKey = revalidations w !! detailKey)
  ∧ (∃ made : list Call,
       calls w' = calls w ++ made
       ∧ (MutateSession ∉ made)
       ∧ (∀ k, MutateGlobal k ∈ made → k = sessionListKey u)
       ∧ filter isCacheMutation made = [MutateGlobal (sessionListKey u)]).
Proof.
  intros w'. unfold w'. rewrite exec_onRevokeCallback. simpl.
  assert (∀ k, k ≠ sessionListKey u →
               revalidate (sessionListKey u) (revalidations w) !! k
               = revalidations w !! k) as Hframe.
  { intros k Hk. unfold revalidate. by rewrite lookup_insert_ne. }
  split_and!; [done | |].
  - intros detailKey Hkey.
    assert (detailKey ≠ sessionListKey u) as Hne.
    { apply fetched_sessionKey in Hkey as (u' & s & [= <-] & _ & ->).
      apply sessionKey_ne_sessionListKey. }
    split; [done|]. by apply Hframe.
  - eexists. split; [done|]. split_and!.
    + rewrite !not_elem_of_cons. split_and!; try done. apply not_elem_of_nil.
    + intros k. rewrite !elem_of_cons, elem_of_nil.
      intros [?|[[= ->]|[?|[]]]]; done.
    + done.
Qed.

Lemma onRevokeCallback_frame_witness :
  let w := world (run (mount (Some "u1") (Some "s1") true)
                      [InvokeRevoke; Confirm]) in
  fetched (sessionKey (Some "u1") (Some "s1")) = Some "api/users/u1/sessions/s1"
  ∧ revalidations (exec (onRevokeCallback "u1") w)
      !! "api/users/u1/sessions/s1" = None.
Proof.
  intros w.
  assert (fetched (sessionKey (Some "u1") (Some "s1"))
          = Some "api/users/u1/sessions/s1") as Hkey by reflexivity.
  split; [done|].
  destruct (onRevokeCallback_frame "u1" (Some "s1") w) as (_ & Hdetail & _).
  destruct (Hdetail _ Hkey) as [_ ->]. reflexivity.
Defined.

(** ** The UI cookie guard *)

Lemma logtoUiCookieFields_forall (P : string → Prop) :
  (∀ field, field ∈ logtoUiCookieFields → P field)
  ↔ P "appId" ∧ P "organizationId" ∧ P "ui_locales".
Proof.
  unfold logtoUiCookieFields. split.
  - intros Hall. split_and!; apply Hall; rewrite !elem_of_cons; auto.
  - intros (Ha & Ho & Hl) field.
    rewrite !elem_of_cons, elem_of_nil. intros [->|[->|[->|[]]]]; done.
Qed.

Lemma safeParse_guard_object (props : object JsValue) :
  is_Some (safeParse logtoUiCookieGuard (VObject props))
  ↔ absentOrString (prop props "appId") = true
    ∧ absentOrString (prop props "organizationId") = true
    ∧ absentOrString (prop props "ui_locales") = true.
Proof.
  unfold logtoUiCookieGuard. simpl.
  destruct (prop props "appId"), (prop props "organizationId"),
    (prop props "ui_locales"); simpl;
    repeat case_match; simpl;
    (split; [first [by intros [? [=]] | done] | first [by intros (? & ? & ?) | by eexists]]).
Qed.

Lemma absentOrString_prop (props : object JsValue) (field : string) :
  absentOrString (prop props field) = true
  ↔ get props field = None ∨ get props field = Some VUndefined
    ∨ ∃ s, get props field = Some (VString s).
Proof.
  unfold prop. destruct (get props field) as [[]|]; simpl; split;
    try done; try (intros _; by eauto);
    intros [?|[?|[? ?]]]; done.
Qed.

(** C10, counterexample.  An object whose [appId] property is present and
    holds [undefined], which is not a string, is accepted, and the property
    is kept in the output. *)
Lemma logtoUiCookieGuard_accepts_undefined :
  hasOwn [("appId", VUndefined)] "appId" = true
  ∧ (∀ s, prop [("appId", VUndefined)] "appId" ≠ VString s)
  ∧ safeParse logtoUiCookieGuard (VObject [("appId", VUndefined)])
    = Some (VObject [("appId", VUndefined)]).
Proof. by split_and!. Qed.

(** C10, amended.  The cookie guard accepts exactly the objects in which
    each of [appId], [organizationId] and [ui_locales] is absent, holds
    [undefined], or holds a string.  So it accepts the empty object and
    every object whose fields among the three are strings, and it rejects
    every object in which one of the three holds a value that is neither a
    string nor [undefined], and every input that is not an object. *)
Theorem logtoUiCookieGuard_accepts :
  (∀ data,
     is_Some (safeParse logtoUiCookieGuard data)
     ↔ ∃ props, data = VObject props
                ∧ ∀ field, field ∈ logtoUiCookieFields →
                           absentOrString (prop props field) = true)
  ∧ safeParse logtoUiCookieGuard (VObject []) = Some (VObject [])
  ∧ (∀ props,
       (∀ field, field ∈ logtoUiCookieFields →
          get props field = None ∨ ∃ s, get props field = Some (VString s)) →
       is_Some (safeParse logtoUiCookieGuard (VObject props)))
  ∧ (∀ props field v,
       field ∈ logtoUiCookieFields →
       get props field = Some v →
       absentOrString v = false →
       safeParse logtoUiCookieGuard (VObject props) = None).
Proof.
  assert (∀ props,
            is_Some (safeParse logtoUiCookieGuard (VObject props))
            ↔ ∀ field, field ∈ logtoUiCookieFields →
                       absentOrString (prop props field) = true) as Hobject.
  { intros props.
    rewrite (logtoUiCookieFields_forall
               (λ field, absentOrString (prop props field) = true)).
    apply safeParse_guard_object. }
  split_and!.
  - intros data. split.
    + intros Hsome. destruct data as [| | | | | |props];
        try (by destruct Hsome as [? [=]]).
      exists props. split; [done|]. by apply Hobject.
    + intros (props & -> & Hfields). by apply Hobject.
  - reflexivity.
  - intros props Hfields. apply Hobject. intros field Hfield.
    apply absentOrString_prop.
    destruct (Hfields field Hfield) as [?|?]; auto.
  - intros props field v Hfield Hget Hbad.
    apply eq_None_not_Some. rewrite Hobject. intros Hall.
    specialize (Hall field Hfield). unfold prop in Hall.
    rewrite Hget in Hall. simpl in Hall. congruence.
Qed.

Lemma logtoUiCookieGuard_accepts_witness :
  safeParse logtoUiCookieGuard
    (VObject [("appId", VString "app1"); ("theme", VBoolean true)])
  = Some (VObject [("appId", VString "app1")])
  ∧ is_Some (safeParse logtoUiCookieGuard
               (VObject [("ui_locales", VString "fr"); ("appId", VString "a")]))
  ∧ safeParse logtoUiCookieGuard
      (VObject [("appId", VString "app1"); ("organizationId", VNull)])
    = None.
Proof.
  destruct logtoUiCookieGuard_accepts as (_ & _ & Hstrings & Hreject).
  split_and!.
  - reflexivity.
  - apply Hstrings. intros field.
    unfold logtoUiCookieFields. rewrite !elem_of_cons, elem_of_nil.
    intros [->|[->|[->|[]]]]; simpl; eauto.
  - apply (Hreject _ "organizationId" VNull); [|reflexivity|reflexivity].
    unfold logtoUiCookieFields. rewrite !elem_of_cons. auto.
Defined.

(** * Further properties *)

(** ** Timestamps: one moment in two units *)

(** X1.  A moment given in seconds and the same moment given in
    milliseconds normalise to the same instant exactly when the moment is at
    or after [10^9] seconds: earlier than that, the millisecond value is
    itself below the threshold and is scaled a second time. *)
Theorem timestamp_seconds_milliseconds (secs : Z) :
  (0 < secs < 1000000000000)%Z →
  (timestamp (Finite (secs * 1000)) = timestamp (Finite secs)
   ↔ (1000000000 ≤ secs)%Z)
  ∧ ((secs < 1000000000)%Z →
     timestamp (Finite (secs * 1000)) = Finite (secs * 1000000)).
Proof.
  intros [Hpos Hlt]. rewrite !timestamp_Finite.
  destruct (Z.ltb_spec secs 1000000000000); [|lia].
  destruct (Z.ltb_spec (secs * 1000) 1000000000000); split.
  - split; [intros [= Heq]; lia | lia].
  - intros _. f_equal. lia.
  - split; [lia | done].
  - lia.
Qed.

Lemma timestamp_seconds_milliseconds_witness :
  (0 < 1700000000 < 1000000000000)%Z
  ∧ timestamp (Finite (1700000000 * 1000)) = timestamp (Finite 1700000000).
Proof.
  split; [lia|].
  destruct (timestamp_seconds_milliseconds 1700000000) as [Hiff _]; [lia|].
  apply Hiff. lia.
Defined.

Section TimestampEdges.

Context {Grant : Type} `{!Imports Grant}.

(** X2.  A negative timestamp is below the threshold, so it is read as
    seconds and scaled by 1000; this is stated for the timestamps from
    [-9007199254740] up, whose product is an exact double.  The infinities
    are truthy and reach the date formatter unchanged. *)
Theorem formatTimestamp_negative_infinite :
  (∀ ts : Z, (-9007199254740 ≤ ts < 0)%Z →
     formatTimestamp (Some (Finite ts)) = toLocaleString (Finite (ts * 1000)))
  ∧ (∀ negative : bool,
       formatTimestamp (Some (Infinity negative))
       = toLocaleString (Infinity negative)).
Proof.
  split.
  - intros ts [_ Hneg]. unfold formatTimestamp. simpl.
    destruct (Z.eqb_spec ts 0) as [->|_]; [lia|]. simpl.
    rewrite timestamp_Finite.
    by destruct (Z.ltb_spec ts 1000000000000); [|lia].
  - by intros [].
Qed.

End TimestampEdges.

Lemma formatTimestamp_negative_infinite_witness :
  (-9007199254740 ≤ -1700000000 < 0)%Z
  ∧ @formatTimestamp unit exampleImports (Some (Finite (-1700000000)))
    = "ms:-1700000000000".
Proof.
  split; [lia|].
  destruct (@formatTimestamp_negative_infinite unit exampleImports)
    as [Hneg _].
  rewrite Hneg by lia. reflexivity.
Defined.

(** ** Header label: what the combined phrase carries *)

(** X3.  Whenever the header is the combined phrase, it is keyed
    [browser_on_os] and carries exactly the browser name and the OS name of
    the session, both non-empty; in every other case the header is a plain
    text, and one of the two names is undefined or empty. *)
Theorem headerTitle_shape (info : option SessionDisplayInfo) :
  (∃ b o, info ≫= browserName = Some b ∧ info ≫= osName = Some o
          ∧ b ≠ "" ∧ o ≠ ""
          ∧ headerTitle info
            = DynamicT "user_details.sessions.browser_on_os"
                       [("browser", b); ("os", o)])
  ∨ (∃ t, headerTitle info = Text t
          ∧ (info ≫= browserName = None ∨ info ≫= browserName = Some ""
             ∨ info ≫= osName = None ∨ info ≫= osName = Some "")).
Proof.
  unfold headerTitle.
  destruct (narrow (info ≫= browserName)) as [b|] eqn:Hb.
  - destruct (narrow (info ≫= osName)) as [o|] eqn:Ho.
    + left. apply narrow_Some in Hb as [Hb Hbne].
      apply narrow_Some in Ho as [Ho Hone]. by exists b, o.
    + right. eexists. split; [done|].
      unfold narrow, string_truthy in Ho.
      destruct (info ≫= osName) as [o|]; [|auto].
      destruct (String.eqb_spec o ""); [subst; auto | done].
  - right. eexists. split; [done|].
    unfold narrow, string_truthy in Hb.
    destruct (info ≫= browserName) as [b|]; [|auto].
    destruct (String.eqb_spec b ""); [subst; auto | done].
Qed.

(** ** Authorised applications: separators and React keys *)

Lemma leaves_Nodes (items : list ReactNode) :
  leaves (Nodes items) = items ≫= leaves.
Proof.
  simpl. induction items as [|n items IH]; [done|].
  by rewrite bind_cons, <-IH.
Qed.

Section ApplicationsLayout.

Context {Grant : Type} `{!Imports Grant}.

Lemma leaves_imap_separated (separator : nat → ReactNode)
    (link : string → bool) (ids : list string) :
  (∀ index, leaves (separator index) = [Text ", "]) →
  imap (λ index applicationId,
          Fragment applicationId
            [separator index; ApplicationName applicationId (link applicationId)])
       ids ≫= leaves
  = ids ≫= λ applicationId,
             [Text ", "; ApplicationName applicationId (link applicationId)].
Proof.
  revert separator. induction ids as [|x ids IH]; intros separator Hsep; [done|].
  rewrite imap_cons, !bind_cons.
  rewrite <-(IH (separator ∘ S)) by (intros index; apply Hsep).
  simpl. by rewrite Hsep.
Qed.

Lemma fragmentKeys_imap (separator : nat → ReactNode)
    (link : string → bool) (ids : list string) :
  omap (λ item, match item with
                | Fragment k _ => Some k
                | _ => None
                end)
       (imap (λ index applicationId,
                Fragment applicationId
                  [separator index;
                   ApplicationName applicationId (link applicationId)])
             ids)
  = ids.
Proof.
  revert separator. induction ids as [|x ids IH]; intros separator; [done|].
  rewrite imap_cons. simpl. f_equal. apply (IH (separator ∘ S)).
Qed.

Lemma leaves_imap_cons (link : string → bool) (x : string)
    (ids : list string) :
  imap (λ index applicationId,
          Fragment applicationId
            [if (0 <? index)%nat then Text ", " else Null;
             ApplicationName applicationId (link applicationId)])
       (x :: ids) ≫= leaves
  = ApplicationName x (link x)
    :: (ids ≫= λ applicationId,
                 [Text ", "; ApplicationName applicationId (link applicationId)]).
Proof.
  rewrite imap_cons, bind_cons.
  rewrite <-(leaves_imap_separated
               (λ index, if (0 <? S index)%nat then Text ", " else Null)
               link ids) by done.
  done.
Qed.

(** X4.  What the applications cell puts on the page, in order, is the
    first application, then for every further application a comma text
    followed by that application: the first thing shown is an application,
    the last thing shown is an application, and two applications are
    always one comma apart.  The items are keyed by the application ids,
    which are pairwise distinct.  With no application, or no record, the
    cell shows only the placeholder. *)
Theorem applications_layout (sessionUid : string) (ts : option number)
    (entries : list (string * Grant)) :
  let d := {| payload := {| uid := sessionUid; loginTs := ts;
                            authorizations := fromEntries entries |} |} in
  let ids := keys (fromEntries entries) in
  let application applicationId :=
    ApplicationName applicationId (negb (isBuiltInApplicationId applicationId)) in
  leaves (applications (Some d))
  = match ids with
    | [] => [Text "-"]
    | first :: rest =>
        application first
        :: (rest ≫= λ applicationId, [Text ", "; application applicationId])
    end
  ∧ (entries ≠ [] →
     ids ≠ []
     ∧ fragmentKeys (applications (Some d)) = ids
     ∧ NoDup (fragmentKeys (applications (Some d))))
  ∧ leaves (applications None) = [Text "-"].
Proof.
  intros d ids application.
  destruct (keys_fromEntries entries) as (Hnd & Hin & _).
  assert (leaves (applications (Some d))
          = match ids with
            | [] => [Text "-"]
            | first :: rest =>
                application first
                :: (rest ≫= λ applicationId,
                              [Text ", "; application applicationId])
            end
          ∧ (ids ≠ [] → fragmentKeys (applications (Some d)) = ids))
    as [Hleaves Hkeys].
  { unfold applications. simpl. fold ids.
    destruct ids as [|x ids']; [done|].
    cbn [length Nat.eqb]. split.
    - by rewrite leaves_Nodes, leaves_imap_cons.
    - intros _. unfold fragmentKeys.
      apply (fragmentKeys_imap
               (λ index, if (0 <? index)%nat then Text ", " else Null)). }
  split_and!; [done | | done].
  intros Hne.
  assert (ids ≠ []) as Hids.
  { destruct entries as [|[k v] entries']; [done|].
    intros Hnil. assert (k ∈ ids) as Hk by (apply Hin; simpl; by left).
    rewrite Hnil in Hk. by apply elem_of_nil in Hk. }
  split_and!; [done | by apply Hkeys | by rewrite Hkeys].
Qed.

End ApplicationsLayout.

Lemma applications_layout_witness :
  [("app-b", ()); ("admin-console", ()); ("app-b", ())] ≠ []
  ∧ fragmentKeys
      (@applications unit exampleImports
         (Some {| payload :=
                    {| uid := "s1"; loginTs := None;
                       authorizations :=
                         fromEntries [("app-b", ()); ("admin-console", ());
                                      ("app-b", ())] |} |}))
    = ["app-b"; "admin-console"]
  ∧ leaves
      (@applications unit exampleImports
         (Some {| payload :=
                    {| uid := "s1"; loginTs := None;
                       authorizations :=
                         fromEntries [("app-b", ()); ("admin-console", ());
                                      ("app-b", ())] |} |}))
    = [ApplicationName "app-b" true; Text ", ";
       ApplicationName "admin-console" false].
Proof.
  assert ([("app-b", ()); ("admin-console", ()); ("app-b", ())] ≠ []) as Hne
    by done.
  destruct (@applications_layout unit exampleImports "s1" None
              [("app-b", ()); ("admin-console", ()); ("app-b", ())])
    as (Hleaves & Hlayout & _).
  destruct (Hlayout Hne) as (_ & Hkeys & _).
  split_and!; [done | by rewrite Hkeys | by rewrite Hleaves].
Defined.

(** ** Links and cache keys *)

(** X5.  The page's addresses nest: the details link extends the back link
    by [/sessions/{sessionId}], the key the session is fetched under is that
    link behind [api], and it extends the session-list key of the user by
    [/{sessionId}]. *)
Theorem link_key_scheme (u s : string) :
  getDetailsTabNavLink u s = backLink (Some u) +:+ "/sessions/" +:+ s
  ∧ (u ≠ "" → s ≠ "" →
     fetched (sessionKey (Some u) (Some s))
     = Some ("api" +:+ getDetailsTabNavLink u s)
     ∧ "api" +:+ getDetailsTabNavLink u s = sessionListKey u +:+ "/" +:+ s).
Proof.
  split.
  - unfold getDetailsTabNavLink, backLink. simpl. by rewrite app_assoc_string.
  - intros Hu Hs. destruct (sessionKey_Some u s Hu Hs) as [_ ->].
    split; [done|].
    unfold sessionListKey, getDetailsTabNavLink.
    by rewrite !app_assoc_string.
Qed.

Lemma link_key_scheme_witness :
  "u1" ≠ "" ∧ "s1" ≠ ""
  ∧ fetched (sessionKey (Some "u1") (Some "s1"))
    = Some ("api" +:+ getDetailsTabNavLink "u1" "s1")
  ∧ getDetailsTabNavLink "u1" "s1" = "/users/u1/sessions/s1".
Proof.
  assert ("u1" ≠ "") as Hu by done. assert ("s1" ≠ "") as Hs by done.
  destruct (link_key_scheme "u1" "s1") as [_ Hkey].
  destruct (Hkey Hu Hs) as [Hfetched _].
  by split_and!.
Defined.

(** X6.  The session record can be present only when both route parameters
    are non-empty.  So whenever the page body with the revoke menu item is
    shown, the confirmation modal is rendered too, and the details tab and
    the back link carry the real identifiers: the empty-string fallbacks of
    the tab link are never used. *)
Theorem body_implies_modal (uid sid : option string) (loaded : bool) :
  hasSessionData (mount uid sid loaded) = true →
  ∃ u s, uid = Some u ∧ sid = Some s ∧ u ≠ "" ∧ s ≠ ""
         ∧ (∀ w, ∃ props, revokeModal uid sid w = Some props
                          ∧ modalUserId props = u ∧ modalSessionId props = s
                          ∧ isOpen props = showRevokeConfirmModal w)
         ∧ tabNavHref uid sid = getDetailsTabNavLink u s
         ∧ backLink uid = "/users/" +:+ u.
Proof.
  simpl. intros [_ Hkey%bool_decide_eq_true]%andb_true_iff.
  destruct Hkey as [detailKey Hkey].
  apply fetched_sessionKey in Hkey as Hids.
  destruct Hids as (u & s & -> & -> & ->).
  assert (u ≠ "" ∧ s ≠ "") as [Hu Hs].
  { destruct (String.eqb_spec u "") as [->|Hu].
    - by rewrite sessionKey_falsy in Hkey by by left.
    - destruct (String.eqb_spec s "") as [->|Hs]; [|done].
      by rewrite sessionKey_falsy in Hkey by by right. }
  exists u, s. split_and!; try done.
  intros w. unfold revokeModal.
  assert (narrow (Some u) = Some u) as -> by by apply narrow_Some.
  assert (narrow (Some s) = Some s) as -> by by apply narrow_Some.
  by eexists.
Qed.

Lemma body_implies_modal_witness :
  hasSessionData (mount (Some "u1") (Some "s1") true) = true
  ∧ tabNavHref (Some "u1") (Some "s1") = "/users/u1/sessions/s1"
  ∧ hasSessionData (mount (Some "u1") None true) = false.
Proof.
  assert (hasSessionData (mount (Some "u1") (Some "s1") true) = true) as Hdata
    by reflexivity.
  destruct (body_implies_modal (Some "u1") (Some "s1") true Hdata)
    as (u & s & [= <-] & [= <-] & _ & _ & _ & Hhref & _).
  by split_and!.
Defined.

(** X7.  For user ids without a slash, the details link and the fetch key
    determine the user and the session: two different (user, session) pairs
    never share a link or a cache entry. *)
Theorem link_key_injective (u s u' s' : string) :
  noSlash u = true → noSlash u' = true →
  (getDetailsTabNavLink u s = getDetailsTabNavLink u' s' → u = u' ∧ s = s')
  ∧ (u ≠ "" → s ≠ "" → u' ≠ "" → s' ≠ "" →
     fetched (sessionKey (Some u) (Some s))
     = fetched (sessionKey (Some u') (Some s')) →
     u = u' ∧ s = s').
Proof.
  intros Hu Hu'.
  assert (∀ prefix, prefix +:+ u +:+ "/sessions/" +:+ s
                    = prefix +:+ u' +:+ "/sessions/" +:+ s' →
                    u = u' ∧ s = s') as Hinj.
  { intros prefix Heq%(inj (String.app prefix)).
    destruct (first_slash u u' ("sessions/" +:+ s) ("sessions/" +:+ s')
                Hu Hu' Heq) as [-> Hs%(inj (String.app "sessions/"))].
    done. }
  split.
  - apply Hinj.
  - intros Hune Hsne Hune' Hsne'.
    destruct (sessionKey_Some u s Hune Hsne) as [_ ->].
    destruct (sessionKey_Some u' s' Hune' Hsne') as [_ ->].
    intros Heq. apply (Hinj "api/users/"). congruence.
Qed.

Lemma link_key_injective_witness :
  noSlash "u1" = true ∧ noSlash "u2" = true
  ∧ getDetailsTabNavLink "u1" "s1" ≠ getDetailsTabNavLink "u2" "s1".
Proof.
  assert (noSlash "u1" = true) as Hu by reflexivity.
  assert (noSlash "u2" = true) as Hu' by reflexivity.
  split_and!; [done | done |].
  intros Heq.
  destruct (link_key_injective "u1" "s1" "u2" "s1" Hu Hu') as [Hlink _].
  by destruct (Hlink Heq) as [[=] _].
Defined.

(** ** Handlers: retry, open and cancel *)

(** X8.  Retrying asks for the page's own session entry once more and for
    nothing else: the session list of the user and every other entry keep
    their state, the modal and the history are untouched.  On a page without
    both identifiers retrying leaves the whole cache as it was. *)
Theorem onRetry_frame (uid sid : option string) (w : World) :
  let w' := exec (onRetry uid sid) w in
  calls w' = calls w ++ [MutateSession]
  ∧ showRevokeConfirmModal w' = showRevokeConfirmModal w
  ∧ historyIndex w' = historyIndex w
  ∧ (∀ detailKey, fetched (sessionKey uid sid) = Some detailKey →
       revalidations w' !! detailKey
       = Some (S (default 0 (revalidations w !! detailKey)))
       ∧ (∀ k, k ≠ detailKey → revalidations w' !! k = revalidations w !! k)
       ∧ (∀ u, uid = Some u →
            revalidations w' !! sessionListKey u
            = revalidations w !! sessionListKey u))
  ∧ (string_truthy uid = false ∨ string_truthy sid = false →
     revalidations w' = revalidations w).
Proof.
  intros w'. unfold w', exec, onRetry, mutateSession, fetched. simpl.
  split_and!; try done.
  - intros detailKey Hkey. rewrite Hkey. unfold revalidate.
    assert (∀ k, k ≠ detailKey →
                 <[detailKey := S (default 0 (revalidations w !! detailKey))]>
                   (revalidations w) !! k = revalidations w !! k) as Hframe.
    { intros k Hk. by rewrite lookup_insert_ne. }
    split_and!; [by rewrite lookup_insert_eq | done |].
    intros u ->. apply Hframe.
    apply fetched_sessionKey in Hkey as (u' & s & [= <-] & _ & ->).
    intros Heq. by apply (sessionKey_ne_sessionListKey u s).
  - intros Hids. pose proof (sessionKey_falsy uid sid Hids) as Hnone.
    unfold fetched in Hnone. by rewrite Hnone.
Qed.

Lemma onRetry_frame_witness :
  let w := world (mount (Some "u1") (Some "s1") true) in
  fetched (sessionKey (Some "u1") (Some "s1")) = Some "api/users/u1/sessions/s1"
  ∧ revalidations (exec (onRetry (Some "u1") (Some "s1")) w)
      !! "api/users/u1/sessions/s1" = Some 1
  ∧ string_truthy None = false
  ∧ revalidations (exec (onRetry (Some "u1") None) w) = ∅.
Proof.
  intros w.
  assert (fetched (sessionKey (Some "u1") (Some "s1"))
          = Some "api/users/u1/sessions/s1") as Hkey by reflexivity.
  assert (string_truthy (Some "u1") = false ∨ string_truthy None = false)
    as Hmissing by (by right).
  destruct (onRetry_frame (Some "u1") (Some "s1") w) as (_ & _ & _ & Hhit & _).
  destruct (onRetry_frame (Some "u1") None w) as (_ & _ & _ & _ & Hmiss).
  destruct (Hhit _ Hkey) as (Hcount & _ & _).
  split_and!; [done | by rewrite Hcount | done | by rewrite (Hmiss Hmissing)].
Defined.

Lemma open_cancel_foldl (clicks : list bool) (w : World) :
  revalidations
    (foldl (λ w (open : bool), exec (if open then onClick else onCancel) w)
           w clicks) = revalidations w
  ∧ historyIndex
      (foldl (λ w (open : bool), exec (if open then onClick else onCancel) w)
             w clicks) = historyIndex w
  ∧ filter isInvalidationOrNavigation
      (calls (foldl (λ w (open : bool),
                       exec (if open then onClick else onCancel) w) w clicks))
    = filter isInvalidationOrNavigation (calls w)
  ∧ showRevokeConfirmModal
      (foldl (λ w (open : bool), exec (if open then onClick else onCancel) w)
             w clicks)
    = default (showRevokeConfirmModal w) (last clicks).
Proof.
  revert w. induction clicks as [|open clicks IH]; intros w; [done|].
  simpl. destruct (IH (exec (if open then onClick else onCancel) w))
    as (-> & -> & -> & ->).
  split_and!.
  - by destruct open.
  - by destruct open.
  - destruct open; simpl; by rewrite filter_app, app_nil_r.
  - destruct clicks as [|open' clicks]; [by destruct open|].
    change (last (open :: open' :: clicks)) with (last (open' :: clicks)).
    destruct (last (open' :: clicks)) as [b|] eqn:Hlast; [done|].
    by apply last_None in Hlast.
Qed.

(** X9.  The modal's [isOpen] prop follows the handlers: it is [true] after
    the revoke menu item is clicked and [false] after a cancel or a revoke
    callback, whatever it was before.  Opening and cancelling, in any
    number and order, never invalidates a cache entry and never
    navigates. *)
Theorem open_cancel_frame (u s : string) (w : World)
    (clicks : list bool) :
  u ≠ "" → s ≠ "" →
  (isOpen <$> revokeModal (Some u) (Some s) (exec onClick w)) = Some true
  ∧ (isOpen <$> revokeModal (Some u) (Some s) (exec onCancel w)) = Some false
  ∧ (isOpen <$> revokeModal (Some u) (Some s) (exec (onRevokeCallback u) w))
    = Some false
  ∧ (let w' := foldl (λ w (open : bool),
                        exec (if open then onClick else onCancel) w) w clicks in
     revalidations w' = revalidations w
     ∧ historyIndex w' = historyIndex w
     ∧ filter isInvalidationOrNavigation (calls w')
       = filter isInvalidationOrNavigation (calls w)
     ∧ showRevokeConfirmModal w'
       = default (showRevokeConfirmModal w) (last clicks)).
Proof.
  intros Hu Hs. unfold revokeModal.
  assert (narrow (Some u) = Some u) as -> by by apply narrow_Some.
  assert (narrow (Some s) = Some s) as -> by by apply narrow_Some.
  do 3 (split; [done|]).
  apply open_cancel_foldl.
Qed.

Lemma open_cancel_frame_witness :
  let w := world (mount (Some "u1") (Some "s1") true) in
  "u1" ≠ "" ∧ "s1" ≠ ""
  ∧ (isOpen <$> revokeModal (Some "u1") (Some "s1") (exec onClick w))
    = Some true
  ∧ historyIndex
      (foldl (λ w (open : bool), exec (if open then onClick else onCancel) w)
             w [true; false; true]) = 0%Z.
Proof.
  intros w.
  assert ("u1" ≠ "") as Hu by done. assert ("s1" ≠ "") as Hs by done.
  destruct (open_cancel_frame "u1" "s1" w [true; false; true] Hu Hs)
    as (Hopen & _ & _ & _ & Hhist & _).
  split_and!; [done | done | done | by rewrite Hhist].
Defined.

(** ** Revoke callback: which cache entries it can reach *)

(** X10.  Session-list keys of different users are different, so revoking a
    session of one user leaves the session list of every other user
    untouched. *)
Theorem onRevokeCallback_other_users (u u' : string) (w : World) :
  u' ≠ u →
  sessionListKey u' ≠ sessionListKey u
  ∧ revalidations (exec (onRevokeCallback u) w) !! sessionListKey u'
    = revalidations w !! sessionListKey u'.
Proof.
  intros Hne.
  assert (sessionListKey u' ≠ sessionListKey u) as Hkey
    by (by intros ?%sessionListKey_inj).
  split; [done|].
  rewrite exec_onRevokeCallback. simpl. unfold revalidate.
  by rewrite lookup_insert_ne.
Qed.

Lemma onRevokeCallback_other_users_witness :
  "u2" ≠ "u1"
  ∧ revalidations
      (exec (onRevokeCallback "u1") (world (mount (Some "u1") (Some "s1") true)))
      !! sessionListKey "u2" = None.
Proof.
  assert ("u2" ≠ "u1") as Hne by done.
  split; [done|].
  destruct (onRevokeCallback_other_users "u1" "u2"
              (world (mount (Some "u1") (Some "s1") true)) Hne) as [_ ->].
  reflexivity.
Defined.

Lemma detail_suffix_ne_list_suffix (u : string) :
  noSlash u = true →
  ∀ u' s, u' +:+ "/sessions/" +:+ s ≠ u +:+ "/sessions".
Proof.
  induction u as [|c u IH]; intros Hu [|c' u'] s Heq;
    rewrite ?app_cons, ?app_empty_l in Heq.
  - discriminate Heq.
  - injection Heq as _ Heq. apply (f_equal String.length) in Heq.
    rewrite !length_app in Heq. simpl in Heq. lia.
  - apply noSlash_cons in Hu as [Hc _]. injection Heq as <- _. done.
  - apply noSlash_cons in Hu as [_ Hu]. injection Heq as _ Heq.
    by apply (IH Hu u' s).
Qed.

(** X11.  When the user id contains no slash, the key the revoke callback
    invalidates is not the single-session key of any user and session, so
    the callback leaves every single-session entry in the cache untouched.
    With a slash in the user id the two kinds of key can coincide. *)
Theorem onRevokeCallback_no_detail_entry (u u' s : string) (w : World) :
  (noSlash u = true →
   "api/users/" +:+ u' +:+ "/sessions/" +:+ s ≠ sessionListKey u
   ∧ revalidations (exec (onRevokeCallback u) w)
       !! ("api/users/" +:+ u' +:+ "/sessions/" +:+ s)
     = revalidations w !! ("api/users/" +:+ u' +:+ "/sessions/" +:+ s))
  ∧ fetched (sessionKey (Some "x") (Some "y/sessions"))
    = Some (sessionListKey "x/sessions/y").
Proof.
  split; [|reflexivity].
  intros Hu.
  assert ("api/users/" +:+ u' +:+ "/sessions/" +:+ s ≠ sessionListKey u)
    as Hkey.
  { unfold sessionListKey. intros Heq%(inj (String.app "api/users/")).
    by apply (detail_suffix_ne_list_suffix u Hu u' s). }
  split; [done|].
  rewrite exec_onRevokeCallback. simpl. unfold revalidate.
  by rewrite lookup_insert_ne.
Qed.

Lemma onRevokeCallback_no_detail_entry_witness :
  noSlash "u1" = true
  ∧ "api/users/" +:+ "u2" +:+ "/sessions/" +:+ "s9" ≠ sessionListKey "u1".
Proof.
  assert (noSlash "u1" = true) as Hu by reflexivity.
  split; [done|].
  destruct (onRevokeCallback_no_detail_entry "u1" "u2" "s9"
              (world (mount None None false))) as [Hno _].
  by destruct (Hno Hu) as [Hne _].
Defined.

(** ** The UI cookie guard: what a successful parse returns *)

Lemma safeParse_guard_output (props : object JsValue) (parsed : JsValue) :
  safeParse logtoUiCookieGuard (VObject props) = Some parsed →
  parsed
  = VObject (omap (λ field, pair field <$> get props field)
                  logtoUiCookieFields).
Proof.
  unfold logtoUiCookieGuard, logtoUiCookieFields. simpl.
  unfold prop, hasOwn.
  destruct (get props "appId") as [[]|],
    (get props "organizationId") as [[]|],
    (get props "ui_locales") as [[]|]; simpl;
    intros [= <-]; reflexivity.
Qed.

Lemma get_not_in_keys {V} (o : object V) (k : string) :
  k ∉ keys o → get o k = None.
Proof.
  rewrite elem_of_keys. unfold names.
  induction o as [|[k' v] o IH]; [done|]. simpl.
  intros [Hne Hnin]%not_elem_of_cons.
  destruct (String.eqb_spec k' k) as [->|_]; [done|]. by apply IH.
Qed.

(** X12.  A successful parse returns exactly the known fields that the
    input has, in the order of the schema and with the input's values:
    unknown properties are dropped, the order of the input does not matter,
    and reading any of the three fields from the output gives what the
    input gave. *)
Theorem logtoUiCookieGuard_output (props : object JsValue)
    (parsed : JsValue) :
  safeParse logtoUiCookieGuard (VObject props) = Some parsed →
  ∃ out,
    parsed = VObject out
    ∧ out = omap (λ field, pair field <$> get props field) logtoUiCookieFields
    ∧ (∀ k, k ∈ keys out → k ∈ logtoUiCookieFields)
    ∧ NoDup (keys out)
    ∧ (∀ field, field ∈ logtoUiCookieFields →
                get out field = get props field)
    ∧ (∀ k, k ∉ logtoUiCookieFields → get out k = None).
Proof.
  intros ->%safeParse_guard_output. eexists. split; [done|]. split; [done|].
  assert (∀ k, k ∈ keys (omap (λ field, pair field <$> get props field)
                              logtoUiCookieFields) →
               k ∈ logtoUiCookieFields) as Hknown.
  { intros k. rewrite elem_of_keys. unfold logtoUiCookieFields, names. simpl.
    destruct (get props "appId"), (get props "organizationId"),
      (get props "ui_locales"); simpl;
      rewrite ?elem_of_cons, ?elem_of_nil; intuition auto. }
  split_and!; [done | | |].
  - rewrite NoDup_keys. unfold logtoUiCookieFields, names. simpl.
    destruct (get props "appId"), (get props "organizationId"),
      (get props "ui_locales"); simpl;
      apply (bool_decide_unpack _); by vm_compute.
  - intros field. unfold logtoUiCookieFields.
    rewrite !elem_of_cons, elem_of_nil. simpl.
    intros [->|[->|[->|[]]]];
      destruct (get props "appId"), (get props "organizationId"),
        (get props "ui_locales"); reflexivity.
  - intros k Hk. apply get_not_in_keys. intros Hin. by apply Hk, Hknown.
Qed.

Lemma logtoUiCookieGuard_output_witness :
  safeParse logtoUiCookieGuard
    (VObject [("theme", VString "dark"); ("ui_locales", VString "fr");
              ("appId", VString "app1")])
  = Some (VObject [("appId", VString "app1"); ("ui_locales", VString "fr")])
  ∧ get [("appId", VString "app1"); ("ui_locales", VString "fr")] "theme"
    = None.
Proof.
  assert (safeParse logtoUiCookieGuard
            (VObject [("theme", VString "dark"); ("ui_locales", VString "fr");
                      ("appId", VString "app1")])
          = Some (VObject [("appId", VString "app1");
                           ("ui_locales", VString "fr")])) as Hparsed
    by reflexivity.
  split; [done|].
  destruct (logtoUiCookieGuard_output _ _ Hparsed)
    as (out & [= <-] & _ & _ & _ & _ & Hunknown).
  apply Hunknown. unfold logtoUiCookieFields.
  rewrite !not_elem_of_cons. split_and!; try done. apply not_elem_of_nil.
Defined.

(** X13.  Parsing is idempotent: whatever the guard returns, the guard
    accepts again and returns unchanged. *)
Theorem logtoUiCookieGuard_idempotent (data parsed : JsValue) :
  safeParse logtoUiCookieGuard data = Some parsed →
  safeParse logtoUiCookieGuard parsed = Some parsed.
Proof.
  destruct data as [| | | | | |props]; try done.
  intros Hparsed.
  assert (is_Some (safeParse logtoUiCookieGuard (VObject props))) as Hok
    by by eexists.
  apply safeParse_guard_object in Hok as (Ha & Ho & Hl).
  apply safeParse_guard_output in Hparsed as ->.
  unfold prop in Ha, Ho, Hl. unfold logtoUiCookieFields. simpl.
  destruct (get props "appId") as [[]|]; try done;
    destruct (get props "organizationId") as [[]|]; try done;
    destruct (get props "ui_locales") as [[]|]; try done.
Qed.

Lemma logtoUiCookieGuard_idempotent_witness :
  safeParse logtoUiCookieGuard
    (VObject [("appId", VUndefined); ("ui_locales", VString "fr")])
  = Some (VObject [("appId", VUndefined); ("ui_locales", VString "fr")]).
Proof.
  apply (logtoUiCookieGuard_idempotent
           (VObject [("x", VNull); ("appId", VUndefined);
                     ("ui_locales", VString "fr")])).
  reflexivity.
Defined.

(** X14.  Making the schema partial only widens it: every input the full
    object schema accepts the guard accepts too, with the same output; the
    full schema accepts only objects in which all three fields are strings,
    and so rejects the empty object, which the guard accepts. *)
Theorem partial_widens (data parsed : JsValue) :
  (safeParse (ZObject [("appId", ZString); ("organizationId", ZString);
                       ("ui_locales", ZString)]) data = Some parsed →
   safeParse logtoUiCookieGuard data = Some parsed
   ∧ ∃ props a o l,
       data = VObject props
       ∧ get props "appId" = Some (VString a)
       ∧ get props "organizationId" = Some (VString o)
       ∧ get props "ui_locales" = Some (VString l))
  ∧ safeParse (ZObject [("appId", ZString); ("organizationId", ZString);
                        ("ui_locales", ZString)]) (VObject []) = None
  ∧ safeParse logtoUiCookieGuard (VObject []) = Some (VObject []).
Proof.
  split; [|done].
  destruct data as [| | | | | |props]; try done.
  unfold logtoUiCookieGuard. simpl. unfold prop, hasOwn.
  destruct (get props "appId") as [[| | | |a| |]|] eqn:Ha; try done;
    destruct (get props "organizationId") as [[| | | |o| |]|] eqn:Ho;
    try done;
    destruct (get props "ui_locales") as [[| | | |l| |]|] eqn:Hl; try done.
  simpl. intros [= <-]. split; [done|]. by exists props, a, o, l.
Qed.

Lemma partial_widens_witness :
  safeParse logtoUiCookieGuard
    (VObject [("appId", VString "a"); ("organizationId", VString "o");
              ("ui_locales", VString "en")])
  = Some (VObject [("appId", VString "a"); ("organizationId", VString "o");
                   ("ui_locales", VString "en")]).
Proof.
  destruct (partial_widens
              (VObject [("appId", VString "a"); ("organizationId", VString "o");
                        ("ui_locales", VString "en")])
              (VObject [("appId", VString "a"); ("organizationId", VString "o");
                        ("ui_locales", VString "en")])) as [Hwiden _].
  by destruct Hwiden as [Hparsed _].
Defined.
